(** * tuf/repo.go: repository handles, fetch options and the delegation resolver

    A shallow embedding of [tuf/repo.go] and the properties of its
    functions.  Go pointers that are mutated in place (to [repoOptions],
    to [RootTarget], the receiver of [roleFetcher.fetch]) become explicit
    state passing; a Go value-and-error result becomes [result]; a Go
    panic becomes the [Panic] outcome. *)

From Stdlib Require Import ZArith Ascii String.
From stdpp Require Import gmap strings list pretty.

#[local] Set Warnings "-clear-no-such-hyp".

(** ** Errors and outcomes *)

(** The error numbers [os.Stat] can report that matter to [validatePath]. *)
Inductive errno : Type := ENOENT | EACCES | ENOTDIR | ELOOP.

(** Go [error] values.  [errTargetSeen] is the package's sentinel (declared
    outside this file, compared by identity in [getDelegatedTarget]);
    [PathError] is what [os.Stat] returns; [Errorf] and [Wrap] are the
    constructors of github.com/pkg/errors, kept symbolic: [Errorf] holds the
    format and its arguments. *)
Inductive error : Type :=
| errTargetSeen
| errNew (message : string)
| PathError (op path : string) (e : errno)
| Errorf (format : string) (args : list string)
| Wrap (cause : error) (message : string).

#[global] Instance errno_eq_dec : EqDecision errno.
Proof. solve_decision. Defined.

#[global] Instance error_eq_dec : EqDecision error.
Proof. solve_decision. Defined.

(** [errors.Wrap] returns nil when handed a nil error. *)
Definition errors_Wrap (err : option error) (message : string) : option error :=
  match err with
  | None => None
  | Some e => Some (Wrap e message)
  end.

(** A Go pointer-and-error result of which exactly one side is non-nil. *)
Inductive result (A : Type) : Type :=
| Ok (a : A)
| Err (e : error).
Arguments Ok {A} a.
Arguments Err {A} e.

(** A call either returns or panics. *)
Inductive outcome (A : Type) : Type :=
| Return (a : A)
| Panic (message : string).
Arguments Return {A} a.
Arguments Panic {A} message.

(** ** Constants *)

Definition maxDelegationCount : nat := 50.

(** * Fetch options *)

Module Options.

(** [tester] is an interface with the single method [test([]byte) error]. *)
Record tester : Type := { test : list Byte.byte -> option error }.

Record rootOptions : Type := { version : Z }.

Record roleOptions : Type := { expectedLength : Z; tests : list tester }.

(** [repoOptions] embeds both structs. *)
Record repoOptions : Type :=
  { opts_rootOptions : rootOptions; opts_roleOptions : roleOptions }.

(** A [repoOption] is a function on a pointer to [repoOptions]: the
    mutation through the pointer is the returned value. *)
Definition repoOption : Type := repoOptions -> repoOptions.

Definition withRootVersion (version : Z) : repoOption :=
  fun opts =>
    {| opts_rootOptions := {| version := version |};
       opts_roleOptions := opts_roleOptions opts |}.

Definition withRoleExpectedLength (len : Z) : repoOption :=
  fun opts =>
    {| opts_rootOptions := opts_rootOptions opts;
       opts_roleOptions :=
         {| expectedLength := len;
            tests := tests (opts_roleOptions opts) |} |}.

Definition withRoleTest (t : tester) : repoOption :=
  fun opts =>
    {| opts_rootOptions := opts_rootOptions opts;
       opts_roleOptions :=
         {| expectedLength := expectedLength (opts_roleOptions opts);
            tests := tests (opts_roleOptions opts) ++ [t] |} |}.

(** The three constructors of options, as data, so that an order of
    application can be spoken of. *)
Inductive optionCall : Type :=
| CallRootVersion (version : Z)
| CallRoleExpectedLength (len : Z)
| CallRoleTest (t : tester).

Definition call (c : optionCall) : repoOption :=
  match c with
  | CallRootVersion v => withRootVersion v
  | CallRoleExpectedLength n => withRoleExpectedLength n
  | CallRoleTest t => withRoleTest t
  end.

(** A sequence of options applied, in order, to the same [repoOptions]. *)
Definition applyOptions (cs : list optionCall) (o : repoOptions) : repoOptions :=
  fold_left (fun acc c => call c acc) cs o.

(** The testers of a sequence of calls, in the order the calls are made. *)
Fixpoint testersOf (cs : list optionCall) : list tester :=
  match cs with
  | [] => []
  | CallRoleTest t :: cs' => t :: testersOf cs'
  | _ :: cs' => testersOf cs'
  end.

(** The last pinned version and expected length of a sequence of calls. *)
Fixpoint lastVersion (cs : list optionCall) (d : Z) : Z :=
  match cs with
  | [] => d
  | CallRootVersion v :: cs' => lastVersion cs' v
  | _ :: cs' => lastVersion cs' d
  end.

Fixpoint lastLength (cs : list optionCall) (d : Z) : Z :=
  match cs with
  | [] => d
  | CallRoleExpectedLength n :: cs' => lastLength cs' n
  | _ :: cs' => lastLength cs' d
  end.

(** The calls of one fetch: one pinned version, one expected length and the
    testers [ts], in some order that keeps the testers in theirs. *)
Definition orderOf (v n : Z) (ts : list tester) (cs : list optionCall) : Prop :=
  cs ≡ₚ CallRootVersion v :: CallRoleExpectedLength n :: map CallRoleTest ts
  ∧ testersOf cs = ts.

End Options.

(** * Local repository handle *)

Module LocalRepo.

(** The part of the file system [os.Stat] looks at.  [Denied] stands for an
    entry the process may not inspect (a parent directory without search
    permission); [Symlink] is followed by [os.Stat], at most [maxSymlinks]
    times.  Paths are the keys of a flat map, compared as written: a path
    below a regular file, for which [os.Stat] reports [ENOTDIR], and a path
    with a trailing slash are not told apart from a missing entry.  The
    properties of [validatePath] and [newLocalRepo] are stated over what
    [os_Stat] returns, [ENOTDIR] included. *)
Inductive entry : Type :=
| File
| Dir
| Symlink (target : string)
| Denied.

Record FileInfo : Type := { IsDir : bool }.

Definition maxSymlinks : nat := 40.

Fixpoint follow (hops : nat) (fs : gmap string entry) (path : string)
  : FileInfo + errno :=
  match fs !! path with
  | None => inr ENOENT
  | Some File => inl {| IsDir := false |}
  | Some Dir => inl {| IsDir := true |}
  | Some Denied => inr EACCES
  | Some (Symlink target) =>
      match hops with
      | O => inr ELOOP
      | S hops' => follow hops' fs target
      end
  end.

(** [os.Stat]: a nil [FileInfo] comes with every error. *)
Definition os_Stat (fs : gmap string entry) (name : string)
  : option FileInfo * option error :=
  match follow maxSymlinks fs name with
  | inl fi => (Some fi, None)
  | inr e => (None, Some (PathError "stat" name e))
  end.

(** [os.IsNotExist] *)
Definition os_IsNotExist (err : option error) : bool :=
  match err with
  | Some (PathError _ _ ENOENT) => true
  | _ => false
  end.

Definition nilDereference : string :=
  "runtime error: invalid memory address or nil pointer dereference".

(** [validatePath]: the method call [fi.IsDir()] on a nil [fi] panics. *)
Definition validatePath (fs : gmap string entry) (repoPath : string)
  : outcome (option error) :=
  let '(fi, err) := os_Stat fs repoPath in
  if os_IsNotExist err then
    Return (errors_Wrap err "tuf repo path validation failed")
  else
    match fi with
    | None => Panic nilDereference
    | Some fi =>
        if negb (IsDir fi) then
          Return (Some (Errorf "tuf repo path %q must be a directory" [repoPath]))
        else Return None
    end.

Record localRepo : Type := { repoPath : string }.

Definition baseDir (r : localRepo) : string := repoPath r.

Definition newLocalRepo (fs : gmap string entry) (repoPath : string)
  : outcome (result localRepo) :=
  match validatePath fs repoPath with
  | Panic m => Panic m
  | Return (Some err) => Return (Err (Wrap err "new tuf repo"))
  | Return None => Return (Ok {| repoPath := repoPath |})
  end.

(** A small tree: a directory, a file, a link to the directory, an entry
    that may not be inspected. *)
Definition sampleFS : gmap string entry :=
  list_to_map [("/var/tuf", Dir); ("/etc/passwd", File);
               ("/srv/tuf", Symlink "/var/tuf"); ("/root/tuf", Denied)].

End LocalRepo.

(** * Remote repository handle *)

Module NotaryRepo.

Definition tufURLScheme : string := "https".

Section Model.

(** [url.URL], of which [validateURL] reads the field [Scheme], and
    [url.Parse], belong to the Go library; [http.Client] is never inspected. *)
Context {URL Client : Type} (Scheme : URL -> string)
        (url_Parse : string -> result URL).

Definition validateURL (repoURL : string) : result URL :=
  match url_Parse repoURL with
  | Err err => Err (Wrap err "tuf remote repo url validation failed")
  | Ok u =>
      if negb (bool_decide (Scheme u = tufURLScheme)) then
        Err (Errorf "tuf url scheme must be %q" [tufURLScheme])
      else Ok u
  end.

(** The fields of [Settings], declared outside this file, that
    [newNotaryRepo] reads. *)
Record Settings : Type := { GUN : string; NotaryURL : string }.

Record notaryRepo : Type :=
  { url : URL; gun : string; maxResponseSize : Z; client : Client }.

(** [newNotaryRepo]; [settings] is a pointer, read before the URL is
    validated: on nil the field access panics. *)
Definition newNotaryRepo (settings : option Settings) (maxResponseSize : Z)
    (client : Client) : outcome (result notaryRepo) :=
  match settings with
  | None => Panic LocalRepo.nilDereference
  | Some st =>
      match validateURL (NotaryURL st) with
      | Err err => Return (Err err)
      | Ok u =>
          Return (Ok {| url := u; gun := GUN st;
                        maxResponseSize := maxResponseSize; client := client |})
      end
  end.

End Model.

End NotaryRepo.

(** * Role identity *)

Module RoleIdentity.

(** [type role string] *)
Definition role : Type := string.

(** Modelled from the spec: the four role constants [roleRoot],
    [roleTargets], [roleTimestamp] and [roleSnapshot] are declared outside
    this file; they are the top-level role names of the grammar. *)
Definition roleRoot : role := "root".
Definition roleTargets : role := "targets".
Definition roleTimestamp : role := "timestamp".
Definition roleSnapshot : role := "snapshot".

(** ** Regular expressions, as far as [roleRegex] needs them *)

Inductive regex : Type :=
| Empty                      (* the empty word *)
| Lit (c : ascii)            (* a literal character *)
| Range (lo hi : ascii)      (* the class [lo-hi] *)
| Bol                        (* ^ : beginning of text *)
| Eol                        (* $ : end of text (no multi-line flag) *)
| Cat (r1 r2 : regex)
| Alt (r1 r2 : regex)
| Star (r : regex)
| Plus (r : regex).

Definition inRange (lo hi c : ascii) : bool :=
  (nat_of_ascii lo <=? nat_of_ascii c)%nat && (nat_of_ascii c <=? nat_of_ascii hi)%nat.

(** Zero or more rounds of [step], then [k].  A round that consumes nothing
    is cut off, so [fuel] = the length of the text is never exhausted. *)
Fixpoint iterate (step : bool -> list ascii -> (bool -> list ascii -> bool) -> bool)
    (k : bool -> list ascii -> bool) (fuel : nat) (b : bool) (s : list ascii)
    {struct fuel} : bool :=
  k b s ||
  match fuel with
  | O => false
  | S fuel' =>
      step b s
        (fun b' s' =>
           if (List.length s' <? List.length s)%nat
           then iterate step k fuel' b' s' else false)
  end.

(** A backtracking matcher.  [atStart] tells whether the position is the
    beginning of the text, [s] is the text from the position on, and [k]
    receives the position after a match of [r]. *)
Fixpoint matchk (r : regex) (atStart : bool) (s : list ascii)
    (k : bool -> list ascii -> bool) {struct r} : bool :=
  match r with
  | Empty => k atStart s
  | Lit c =>
      match s with
      | c' :: s' => if decide (c = c') then k false s' else false
      | [] => false
      end
  | Range lo hi =>
      match s with
      | c' :: s' => if inRange lo hi c' then k false s' else false
      | [] => false
      end
  | Bol => atStart && k atStart s
  | Eol => match s with [] => k atStart s | _ => false end
  | Cat r1 r2 => matchk r1 atStart s (fun b s' => matchk r2 b s' k)
  | Alt r1 r2 => matchk r1 atStart s k || matchk r2 atStart s k
  | Star r1 => iterate (matchk r1) k (List.length s) atStart s
  | Plus r1 =>
      matchk r1 atStart s
        (fun b s' => iterate (matchk r1) k (List.length s') b s')
  end.

(** The continuation of [MatchString]: a match may end anywhere. *)
Definition ktrue : bool -> list ascii -> bool := fun _ _ => true.

(** [MatchString]: is there a match starting at some position of the text? *)
Fixpoint searchFrom (r : regex) (atStart : bool) (s : list ascii) : bool :=
  matchk r atStart s ktrue ||
  match s with
  | [] => false
  | _ :: s' => searchFrom r false s'
  end.

Definition MatchString (r : regex) (s : string) : bool :=
  searchFrom r true (list_ascii_of_string s).

(** A literal word. *)
Definition litL (w : list ascii) : regex :=
  foldr (fun c acc => Cat (Lit c) acc) Empty w.

Definition lit (w : string) : regex := litL (list_ascii_of_string w).

(** [^root$|^[1-9]*[0-9]+\.root$|^snapshot$|^timestamp$|^targets$] *)
Definition roleRegex : regex :=
  Alt (Cat Bol (Cat (lit "root") Eol))
 (Alt (Cat Bol (Cat (Star (Range "1"%char "9"%char))
                (Cat (Plus (Range "0"%char "9"%char)) (Cat (lit ".root") Eol))))
 (Alt (Cat Bol (Cat (lit "snapshot") Eol))
 (Alt (Cat Bol (Cat (lit "timestamp") Eol))
      (Cat Bol (Cat (lit "targets") Eol))))).

Definition validateRole (r : role) : option error :=
  if negb (MatchString roleRegex r) then
    Some (Errorf "%q is not a valid role" [r])
  else None.

(** The dynamic types the type switch of [isRoleCorrect] tells apart; every
    other type of value is [TOther]. *)
Inductive dynType : Type :=
| TRoot | TPtrRoot
| TTargets | TPtrTargets
| TTimestamp | TPtrTimestamp
| TSnapshot | TPtrSnapshot
| TOther.

Definition isRoleCorrect (r : role) (s : dynType) : outcome unit :=
  let hit :=
    match s with
    | TRoot | TPtrRoot => bool_decide (r = roleRoot)
    | TTargets | TPtrTargets => bool_decide (r = roleTargets)
    | TTimestamp | TPtrTimestamp => bool_decide (r = roleTimestamp)
    | TSnapshot | TPtrSnapshot => bool_decide (r = roleSnapshot)
    | TOther => false
    end in
  if negb hit then Panic "Programmer error! Role name and role type mismatch."
  else Return tt.

(** ** The grammar of the specification

    [root | <positive-int>.root | snapshot | timestamp | targets], written
    from the words of the specification, to compare [validateRole] and
    [isRoleCorrect] with. *)

Definition isDigit (c : ascii) : bool := inRange "0"%char "9"%char c.

(** A positive decimal integer: a digit from 1 to 9, then digits. *)
Definition spec_positiveInt (w : list ascii) : bool :=
  match w with
  | [] => false
  | c :: w' => inRange "1"%char "9"%char c && forallb isDigit w'
  end.

(** Splits [w] at its first dot. *)
Fixpoint splitDot (w : list ascii) : option (list ascii * list ascii) :=
  match w with
  | [] => None
  | c :: w' =>
      if decide (c = "."%char) then Some ([], w')
      else match splitDot w' with
           | Some (a, b) => Some (c :: a, b)
           | None => None
           end
  end.

Definition spec_versionedRoot (r : role) : bool :=
  match splitDot (list_ascii_of_string r) with
  | Some (n, rest) =>
      spec_positiveInt n && bool_decide (rest = list_ascii_of_string "root")
  | None => false
  end.

(** The name of the versioned root with the digits [ds]. *)
Definition versionOf (ds : list ascii) : list ascii :=
  ds ++ list_ascii_of_string ".root".

Definition spec_validRoleName (r : role) : bool :=
  bool_decide (r = "root") || spec_versionedRoot r || bool_decide (r = "snapshot")
  || bool_decide (r = "timestamp") || bool_decide (r = "targets").

(** The role names the specification expects for each type of value: root
    or a versioned root for a Root, targets or a delegated role (a name
    outside the top-level grammar) for a Targets. *)
Definition spec_roleMatchesType (r : role) (s : dynType) : bool :=
  match s with
  | TRoot | TPtrRoot => bool_decide (r = "root") || spec_versionedRoot r
  | TTargets | TPtrTargets =>
      bool_decide (r = "targets") || negb (spec_validRoleName r)
  | TTimestamp | TPtrTimestamp => bool_decide (r = "timestamp")
  | TSnapshot | TPtrSnapshot => bool_decide (r = "snapshot")
  | TOther => false
  end.

End RoleIdentity.

(** * Delegation resolver *)

Module Resolver.

Import RoleIdentity.

Section Model.

(** The record kept per target path ([FileIntegrityMeta], the values of
    [FimMap]) is declared outside this file and never inspected by it. *)
Context {FIM : Type}.

(** The fields of [Targets] that the traversal reads:
    [Signed.Delegations.Roles], each with its [Name], and the target files
    [Signed.Targets] that [RootTarget.append] records. *)
Record DelegationRole : Type := { Name : string }.

Record Delegations : Type := { Roles : list DelegationRole }.

Record SignedTarget : Type :=
  { signed_Delegations : Delegations; signed_Targets : gmap string FIM }.

Record Targets : Type := { Signed : SignedTarget }.

(** [RootTarget] embeds the top-level [Targets]. *)
Record RootTarget : Type :=
  { root_Targets : Targets;
    paths : gmap string FIM;
    targetLookup : gmap string Targets }.

(** Modelled from the spec: [RootTarget.append] is declared outside this
    file.  It records the role in the role lookup and each of its target
    files in the path-ownership map, unless the path is already claimed
    (first write wins). *)
Definition claim (path : string) (fim : FIM) (owned : gmap string FIM)
  : gmap string FIM :=
  match owned !! path with
  | Some _ => owned
  | None => <[path := fim]> owned
  end.

Definition append (rt : RootTarget) (role : string) (targ : Targets) : RootTarget :=
  {| root_Targets := root_Targets rt;
     paths := map_fold claim (paths rt) (signed_Targets (Signed targ));
     targetLookup := <[role := targ]> (targetLookup rt) |}.

(** [roleFetcher] is an interface; [F] is the state behind its receiver. *)
Class roleFetcher (F : Type) : Type :=
  { fetch : F -> string -> F * result Targets }.

(** What a visit leaves behind: the fetcher, the tree and the error. *)
Definition visited (F : Type) : Type := F * RootTarget * option error.

Section Traversal.

Context {F : Type} `{!roleFetcher F}.

(** The loop of [getDelegatedTarget] over the delegations of a role, with
    the recursive call as [visit]. *)
Fixpoint delegatedLoop (visit : F -> RootTarget -> string -> option (visited F))
    (roles : list DelegationRole) (fetcher : F) (root : RootTarget)
  : option (visited F) :=
  match roles with
  | [] => Some (fetcher, root, None)
  | role :: roles' =>
      match visit fetcher root (Name role) with
      | None => None
      | Some (fetcher, root, err) =>
          (* prevent cycles *)
          if decide (err = Some errTargetSeen) then
            delegatedLoop visit roles' fetcher root
          else
            match err with
            | Some e => Some (fetcher, root, Some e)
            | None => delegatedLoop visit roles' fetcher root
            end
      end
  end.

(** [getDelegatedTarget]; [None] when the recursion is deeper than [fuel]. *)
Fixpoint getDelegatedTarget (fuel : nat) (fetcher : F) (root : RootTarget)
    (roleName : string) : option (visited F) :=
  match fuel with
  | O => None
  | S fuel' =>
      let '(fetcher, r) := fetch fetcher roleName in
      match r with
      | Err err => Some (fetcher, root, Some err)
      | Ok target =>
          let root := append root roleName target in
          delegatedLoop (getDelegatedTarget fuel')
            (Roles (signed_Delegations (Signed target))) fetcher root
      end
  end.

(** The loop of [targetTreeBuilder] over the delegations of the top-level
    role: every error ends it. *)
Fixpoint topLoop (visit : F -> RootTarget -> string -> option (visited F))
    (roles : list DelegationRole) (fetcher : F) (root : RootTarget)
  : option (visited F) :=
  match roles with
  | [] => Some (fetcher, root, None)
  | delegation :: roles' =>
      match visit fetcher root (Name delegation) with
      | None => None
      | Some (fetcher, root, Some err) => Some (fetcher, root, Some err)
      | Some (fetcher, root, None) => topLoop visit roles' fetcher root
      end
  end.

(** [targetTreeBuilder]; [fuel] bounds the depth of [getDelegatedTarget]. *)
Definition targetTreeBuilder (fuel : nat) (fetcher : F)
  : option (F * result RootTarget) :=
  let '(fetcher, r) := fetch fetcher roleTargets in
  match r with
  | Err err => Some (fetcher, Err err)
  | Ok targ =>
      let root :=
        {| root_Targets := targ; paths := ∅; targetLookup := ∅ |} in
      let root := append root roleTargets targ in
      match topLoop (getDelegatedTarget fuel)
              (Roles (signed_Delegations (Signed (root_Targets root))))
              fetcher root with
      | None => None
      | Some (fetcher, _, Some err) => Some (fetcher, Err err)
      | Some (fetcher, root, None) => Some (fetcher, Ok root)
      end
  end.

End Traversal.

(** ** Fetchers *)

(** A fetcher together with the record of the calls made to it and of what
    they returned. *)
Record logged (F : Type) : Type :=
  { inner : F; calls : list (string * result Targets) }.
Arguments inner {F} l.
Arguments calls {F} l.

#[export] Instance logged_fetcher {F : Type} `{!roleFetcher F}
  : roleFetcher (logged F) :=
  {| fetch lf name :=
       let '(f, r) := fetch (inner lf) name in
       ({| inner := f; calls := calls lf ++ [(name, r)] |}, r) |}.

(** Modelled from the spec: the fetchers of the package are declared outside
    this file.  This one serves a fixed delegation graph and reports the
    sentinel [errTargetSeen] for a role it has already served, which is what
    step 4.5.1 and the loop of [getDelegatedTarget] expect of a fetcher. *)
Record graphFetcher : Type :=
  { graph : gmap string Targets; served : gset string }.

Definition errNoSuchRole : error := errNew "no such role".

#[export] Instance graph_fetcher : roleFetcher graphFetcher :=
  {| fetch gf name :=
       if decide (name ∈ served gf) then (gf, Err errTargetSeen)
       else
         match graph gf !! name with
         | None => (gf, Err errNoSuchRole)
         | Some targ =>
             ({| graph := graph gf; served := {[name]} ∪ served gf |}, Ok targ)
         end |}.

(** A fetcher that keeps no record of the roles it has served and so never
    reports the sentinel. *)
Record plainFetcher : Type := { metadata : gmap string Targets }.

#[export] Instance plain_fetcher : roleFetcher plainFetcher :=
  {| fetch pf name :=
       match metadata pf !! name with
       | None => (pf, Err errNoSuchRole)
       | Some targ => (pf, Ok targ)
       end |}.

(** ** Reading the record of calls *)

(** The successful calls, in order: the roles visited. *)
Fixpoint visits (l : list (string * result Targets)) : list (string * Targets) :=
  match l with
  | [] => []
  | (name, Ok targ) :: l' => (name, targ) :: visits l'
  | (_, Err _) :: l' => visits l'
  end.

(** The tree after the given visits. *)
Definition replay (rt : RootTarget) (vs : list (string * Targets)) : RootTarget :=
  fold_left (fun rt v => append rt v.1 v.2) vs rt.

(** No call failed with anything but the sentinel. *)
Definition nonfatal (l : list (string * result Targets)) : Prop :=
  ∀ name e, (name, Err e) ∈ l → e = errTargetSeen.

(** The record [l] is a run of the fetcher from [f] to [f']. *)
Fixpoint run {F : Type} `{!roleFetcher F} (f : F)
    (l : list (string * result Targets)) (f' : F) : Prop :=
  match l with
  | [] => f' = f
  | (name, r) :: l' => ∃ f1, fetch f name = (f1, r) ∧ run f1 l' f'
  end.

End Model.

Arguments DelegationRole : clear implicits.
Arguments Delegations : clear implicits.
Arguments SignedTarget : clear implicits.
Arguments Targets : clear implicits.
Arguments RootTarget : clear implicits.
Arguments roleFetcher : clear implicits.
Arguments graphFetcher : clear implicits.
Arguments plainFetcher : clear implicits.
Arguments logged : clear implicits.
Arguments visited : clear implicits.
Arguments inner {FIM F} l.
Arguments calls {FIM F} l.

(** ** What a record of calls says about a traversal *)

Section Records.

Context {FIM : Type}.

(** The tree before any role is recorded. *)
Definition emptyRoot (targ : Targets FIM) : RootTarget FIM :=
  {| root_Targets := targ; paths := ∅; targetLookup := ∅ |}.

(** How the calls [ext] made by a visit relate to the error it returns: a
    returned error is that of the last call, and no earlier call failed
    with anything but the sentinel. *)
Definition shape (ext : list (string * result (Targets FIM)))
    (err : option error) : Prop :=
  match err with
  | Some e => ∃ pre name, ext = pre ++ [(name, Err e)] ∧ nonfatal pre
  | None => nonfatal ext
  end.

(** A visit took the fetcher from [lf] to [lf'] and the tree from [root] to
    [root'] and returned [err]. *)
Definition Trace {F : Type} `{!roleFetcher FIM F}
    (lf : logged FIM F) (root : RootTarget FIM)
    (lf' : logged FIM F) (root' : RootTarget FIM) (err : option error) : Prop :=
  ∃ ext,
    calls lf' = calls lf ++ ext
    ∧ run (inner lf) ext (inner lf')
    ∧ root' = replay root (visits ext)
    ∧ shape ext err.

(** What is required of the recursive call of a loop. *)
Definition traced {F : Type} `{!roleFetcher FIM F}
    (visit : logged FIM F → RootTarget FIM → string →
             option (visited FIM (logged FIM F))) : Prop :=
  ∀ lf root name lf' root' err,
    visit lf root name = Some (lf', root', err) → Trace lf root lf' root' err.

(** Forgetting the record of calls. *)
Definition forget {F : Type} (v : visited FIM (logged FIM F)) : visited FIM F :=
  (inner v.1.1, v.1.2, v.2).

(** The names of the roles visited, in order. *)
Definition visitedRoles (l : list (string * result (Targets FIM))) : list string :=
  (visits l).*1.

(** What termination requires of the recursive call of a loop: it returns,
    and leaves no more budget than it found, from every fetcher with at
    most [n] left. *)
Definition returns {F : Type} `{!roleFetcher FIM F} (budget : F → nat) (n : nat)
    (visit : F → RootTarget FIM → string → option (visited FIM F)) : Prop :=
  ∀ f root name, budget f ≤ n →
    ∃ f' root' err, visit f root name = Some (f', root', err)
                    ∧ budget f' ≤ budget f.

(** How often the role [name] was visited. *)
Definition occurrences (name : string)
    (l : list (string * result (Targets FIM))) : nat :=
  length (filter (λ v, v.1 = name) (visits l)).

(** A fetcher that can serve only so many roles: every successful call uses
    up some of its [budget]. *)
Class Bounded (F : Type) `{!roleFetcher FIM F} (budget : F → nat) : Prop :=
  { fetch_ok_budget f name f' targ :
      fetch f name = (f', Ok targ) → budget f' < budget f;
    fetch_err_budget f name f' e :
      fetch f name = (f', Err e) → budget f' ≤ budget f }.

(** The roles of the graph that a [graphFetcher] has not served yet. *)
Definition unserved (gf : graphFetcher FIM) : nat :=
  size (dom (graph gf) ∖ served gf).

(** The preorder depth-first order of the roles of a graph, in the words of
    the specification: a role, then its delegations in the order declared,
    each explored in full before the next; a role already met is skipped.
    [seen] is the order so far. *)
Fixpoint spec_preorder (fuel : nat) (g : gmap string (Targets FIM))
    (seen : list string) (name : string) : list string :=
  match fuel with
  | O => seen
  | S fuel' =>
      if decide (name ∈ seen) then seen
      else
        match g !! name with
        | None => seen
        | Some targ =>
            fold_left (λ acc d, spec_preorder fuel' g acc (Name d))
              (Roles (signed_Delegations (Signed targ))) (seen ++ [name])
        end
  end.

(** The fetcher of the graph [g] has served the roles its record shows. *)
Definition tracks (g : gmap string (Targets FIM))
    (lf : logged FIM (graphFetcher FIM)) : Prop :=
  graph (inner lf) = g
  ∧ served (inner lf) = list_to_set (visitedRoles (calls lf)).

(** What the preorder requires of the recursive call of a loop. *)
Definition preordered (g : gmap string (Targets FIM)) (fuel : nat)
    (visit : logged FIM (graphFetcher FIM) → RootTarget FIM → string →
             option (visited FIM (logged FIM (graphFetcher FIM)))) : Prop :=
  ∀ lf root name lf' root' err,
    tracks g lf → visit lf root name = Some (lf', root', err) →
    tracks g lf'
    ∧ (err = None ∨ err = Some errTargetSeen →
       visitedRoles (calls lf')
       = spec_preorder fuel g (visitedRoles (calls lf)) name).

(** The number of roles visited and the number of keys of the role lookup
    of a resolution that returned a tree. *)
Definition tally {F : Type}
    (r : option (logged FIM F * result (RootTarget FIM))) : option (nat * nat) :=
  match r with
  | Some (lf, Ok rt) => Some (length (visitedRoles (calls lf)), size (targetLookup rt))
  | _ => None
  end.

(** The delegations a role declares, and those declared by all the roles
    visited. *)
Definition delegationsOf (targ : Targets FIM) : list DelegationRole :=
  Roles (signed_Delegations (Signed targ)).

Definition declared (vs : list (string * Targets FIM)) : nat :=
  sum_list_with (λ v, length (delegationsOf v.2)) vs.

(** The role [name] is delegated to by a role fetched in [l]. *)
Definition delegatedIn (l : list (string * result (Targets FIM))) (name : string)
  : Prop :=
  ∃ parent targ d,
    (parent, Ok targ) ∈ l ∧ d ∈ delegationsOf targ ∧ Name d = name.

(** The roles of the graph [g] that delegations lead to from the top-level
    role. *)
Inductive reachable (g : gmap string (Targets FIM)) : string → Prop :=
| reachable_top : reachable g roleTargets
| reachable_step parent targ d :
    reachable g parent → g !! parent = Some targ → d ∈ delegationsOf targ →
    reachable g (Name d).

(** The fetch of the role [name] was answered in [l] with metadata or with
    the sentinel. *)
Definition answered (l : list (string * result (Targets FIM))) (name : string)
  : Prop :=
  ∃ r, (name, r) ∈ l ∧ (r = Err errTargetSeen ∨ ∃ targ, r = Ok targ).

(** Every delegation of every role fetched in [l] was answered in [l]. *)
Definition closedLog (l : list (string * result (Targets FIM))) : Prop :=
  ∀ parent targ d,
    (parent, Ok targ) ∈ l → d ∈ delegationsOf targ → answered l (Name d).

(** Every call of [l] is for one of [names] or for a role delegated to by
    a role fetched before it. *)
Definition justified (names : list string)
    (l : list (string * result (Targets FIM))) : Prop :=
  ∀ i name r, l !! i = Some (name, r) →
    name ∈ names ∨ delegatedIn (take i l) name.

(** What the calls [ext] of a visit of the role [name] look like. *)
Definition visitLog (name : string) (ext : list (string * result (Targets FIM)))
    (err : option error) : Prop :=
  (∃ r rest, ext = (name, r) :: rest ∧ (err = None → ∃ targ, r = Ok targ))
  ∧ justified [name] ext
  ∧ (err = Some errTargetSeen → ext = [(name, Err errTargetSeen)])
  ∧ (err = None → length ext = 1 + declared (visits ext) ∧ closedLog ext).

(** What the calls [ext] of a loop over the delegations [roles] look like. *)
Definition loopLog (roles : list DelegationRole)
    (ext : list (string * result (Targets FIM))) (err : option error) : Prop :=
  err ≠ Some errTargetSeen
  ∧ justified (Name <$> roles) ext
  ∧ (err = None →
     length ext = length roles + declared (visits ext)
     ∧ (∀ d, d ∈ roles → answered ext (Name d))
     ∧ closedLog ext).

(** The calls of the recursive call of a loop are those of a visit. *)
Definition logsVisits {F : Type} `{!roleFetcher FIM F}
    (visit : logged FIM F → RootTarget FIM → string →
             option (visited FIM (logged FIM F))) : Prop :=
  ∀ lf root name lf' root' err,
    visit lf root name = Some (lf', root', err) →
    ∃ ext, calls lf' = calls lf ++ ext ∧ visitLog name ext err.

(** Did the resolution return a tree? *)
Definition returnsTree {F : Type}
    (r : option (F * result (RootTarget FIM))) : bool :=
  match r with
  | Some (_, Ok _) => true
  | _ => false
  end.

(** A traversal of the graph [g] from scratch, with its calls recorded. *)
Definition start (g : gmap string (Targets FIM)) : logged FIM (graphFetcher FIM) :=
  {| inner := {| graph := g; served := ∅ |}; calls := [] |}.

End Records.

(** ** Sample delegation graphs *)

(** A role with the delegations [ds], in order, and the target files [ts]. *)
Definition node (ds : list string) (ts : list (string * string)) : Targets string :=
  {| Signed :=
       {| signed_Delegations := {| Roles := map (λ n, {| Name := n |}) ds |};
          signed_Targets := list_to_map ts |} |}.

(** A delegates to B and B back to A. *)
Definition cycleGraph : gmap string (Targets string) :=
  list_to_map
    [("targets", node ["A"] []);
     ("A", node ["B"] [("/x", "entry of A")]);
     ("B", node ["A"] [("/x", "entry of B"); ("/y", "entry of B")])].

(** Two siblings that both claim [/x]. *)
Definition siblingGraph : gmap string (Targets string) :=
  list_to_map
    [("targets", node ["targets/a"; "targets/b"] []);
     ("targets/a", node [] [("/x", "entry of targets/a")]);
     ("targets/b", node [] [("/x", "entry of targets/b");
                            ("/y", "entry of targets/b")])].

(** A diamond: [c] is reached through [a] before [b] is visited, and both
    [c] and [b] claim [/p]. *)
Definition diamondGraph : gmap string (Targets string) :=
  list_to_map
    [("targets", node ["a"; "b"] []);
     ("a", node ["c"] []);
     ("b", node ["c"] [("/p", "entry of b")]);
     ("c", node [] [("/p", "entry of c")])].

(** Three siblings that all claim [/p]. *)
Definition tripleGraph : gmap string (Targets string) :=
  list_to_map
    [("targets", node ["w"; "x"; "y"] []);
     ("w", node [] [("/p", "entry of w")]);
     ("x", node [] [("/p", "entry of x")]);
     ("y", node [] [("/p", "entry of y")])].

(** [b] is delegated to by [a] and, after [a], by the top-level role. *)
Definition revisitGraph : gmap string (Targets string) :=
  list_to_map
    [("targets", node ["a"; "b"] []);
     ("a", node ["b"] []);
     ("b", node [] [("/x", "entry of b")])].

(** The same revisit one level down: [top] stands between. *)
Definition nestedRevisitGraph : gmap string (Targets string) :=
  list_to_map
    [("targets", node ["top"] []);
     ("top", node ["a"; "b"] []);
     ("a", node ["b"] []);
     ("b", node [] [("/x", "entry of b")])].

(** [b] has no metadata. *)
Definition brokenGraph : gmap string (Targets string) :=
  list_to_map
    [("targets", node ["a"; "b"; "c"] []);
     ("a", node [] [("/x", "entry of a")]);
     ("c", node [] [("/z", "entry of c")])].

(** The top-level role delegates to [n] leaf roles [d0], [d1], ... *)
Definition leafName (i : nat) : string := "d" +:+ pretty i.

Definition flatGraph (n : nat) : gmap string (Targets string) :=
  list_to_map
    (("targets", node (map leafName (seq 0 n)) [])
     :: map (λ i, (leafName i, node [] [])) (seq 0 n)).

End Resolver.

(** * Properties *)

(** ** Fetch options *)

Section OptionsFacts.

Import Options.

Lemma applyOptions_cons c cs o :
  applyOptions (c :: cs) o = applyOptions cs (call c o).
Proof. reflexivity. Qed.

(** What a sequence of calls leaves in the options. *)
Lemma applyOptions_closed cs o :
  applyOptions cs o =
  {| opts_rootOptions :=
       {| version := lastVersion cs (version (opts_rootOptions o)) |};
     opts_roleOptions :=
       {| expectedLength := lastLength cs (expectedLength (opts_roleOptions o));
          tests := tests (opts_roleOptions o) ++ testersOf cs |} |}.
Proof.
  revert o. induction cs as [|c cs IH]; intros o.
  - destruct o as [[v] [n ts]]; cbn. by rewrite app_nil_r.
  - rewrite applyOptions_cons, IH.
    destruct c, o as [[v] [n ts]]; cbn; try done.
    by rewrite <- app_assoc.
Qed.

Lemma lastVersion_same cs v :
  (∀ v', CallRootVersion v' ∈ cs → v' = v) → lastVersion cs v = v.
Proof.
  induction cs as [|c cs IH]; intros Hall; [done|].
  destruct c as [v'| |]; cbn.
  - rewrite (Hall v') by left. apply IH. intros w Hw. apply Hall. by right.
  - apply IH. intros w Hw. apply Hall. by right.
  - apply IH. intros w Hw. apply Hall. by right.
Qed.

Lemma lastVersion_pinned cs v d :
  (∀ v', CallRootVersion v' ∈ cs → v' = v) → CallRootVersion v ∈ cs →
  lastVersion cs d = v.
Proof.
  revert d. induction cs as [|c cs IH]; intros d Hall Hin.
  - by apply elem_of_nil in Hin.
  - assert (Hall' : ∀ v', CallRootVersion v' ∈ cs → v' = v)
      by (intros w Hw; apply Hall; by right).
    destruct c as [v'| |]; cbn.
    + rewrite (Hall v') by left. by apply lastVersion_same.
    + apply IH; [done|]. by apply elem_of_cons in Hin as [?|?].
    + apply IH; [done|]. by apply elem_of_cons in Hin as [?|?].
Qed.

Lemma lastLength_same cs n :
  (∀ n', CallRoleExpectedLength n' ∈ cs → n' = n) → lastLength cs n = n.
Proof.
  induction cs as [|c cs IH]; intros Hall; [done|].
  destruct c as [|n'|]; cbn.
  - apply IH. intros w Hw. apply Hall. by right.
  - rewrite (Hall n') by left. apply IH. intros w Hw. apply Hall. by right.
  - apply IH. intros w Hw. apply Hall. by right.
Qed.

Lemma lastLength_pinned cs n d :
  (∀ n', CallRoleExpectedLength n' ∈ cs → n' = n) →
  CallRoleExpectedLength n ∈ cs → lastLength cs d = n.
Proof.
  revert d. induction cs as [|c cs IH]; intros d Hall Hin.
  - by apply elem_of_nil in Hin.
  - assert (Hall' : ∀ n', CallRoleExpectedLength n' ∈ cs → n' = n)
      by (intros w Hw; apply Hall; by right).
    destruct c as [|n'|]; cbn.
    + apply IH; [done|]. by apply elem_of_cons in Hin as [?|?].
    + rewrite (Hall n') by left. by apply lastLength_same.
    + apply IH; [done|]. by apply elem_of_cons in Hin as [?|?].
Qed.

Lemma orderOf_apply v n ts cs o :
  orderOf v n ts cs →
  applyOptions cs o =
  {| opts_rootOptions := {| version := v |};
     opts_roleOptions :=
       {| expectedLength := n; tests := tests (opts_roleOptions o) ++ ts |} |}.
Proof.
  intros [Hperm Hts]. rewrite applyOptions_closed, Hts.
  assert (Hmem : ∀ c, c ∈ cs ↔
            c = CallRootVersion v ∨ c = CallRoleExpectedLength n
            ∨ ∃ t, c = CallRoleTest t ∧ t ∈ ts).
  { intros c. rewrite Hperm, !elem_of_cons, list_elem_of_fmap.
    split; (intros [?|[?|(t & ? & ?)]]; eauto). }
  rewrite (lastVersion_pinned cs v), (lastLength_pinned cs n); [done|..].
  - intros n' Hn'. apply Hmem in Hn' as [?|[?|(t & ? & ?)]]; congruence.
  - apply Hmem. auto.
  - intros v' Hv'. apply Hmem in Hv' as [?|[?|(t & ? & ?)]]; congruence.
  - apply Hmem. auto.
Qed.

Lemma withRootVersion_withRoleExpectedLength v n o :
  withRootVersion v (withRoleExpectedLength n o)
  = withRoleExpectedLength n (withRootVersion v o).
Proof. reflexivity. Qed.

Lemma withRootVersion_withRoleTest v t o :
  withRootVersion v (withRoleTest t o) = withRoleTest t (withRootVersion v o).
Proof. reflexivity. Qed.

Lemma withRoleExpectedLength_withRoleTest n t o :
  withRoleExpectedLength n (withRoleTest t o)
  = withRoleTest t (withRoleExpectedLength n o).
Proof. reflexivity. Qed.

Lemma withRoleTest_accumulate ts o :
  tests (opts_roleOptions (applyOptions (map CallRoleTest ts) o))
  = tests (opts_roleOptions o) ++ ts.
Proof.
  rewrite applyOptions_closed; cbn. f_equal.
  induction ts as [|t ts IH]; cbn; [done|]. by rewrite IH.
Qed.

(** C9: the options commute.  Two orders of applying [withRootVersion v],
    [withRoleExpectedLength n] and the [withRoleTest] of the testers [ts]
    that both keep the testers in their order give the same [repoOptions]:
    version [v], expected length [n], and [ts] appended, in order, to the
    testers already there.  [withRootVersion] and [withRoleExpectedLength]
    commute with each other and with [withRoleTest]. *)
Theorem repoOption_order_independent v n ts cs1 cs2 o :
  orderOf v n ts cs1 → orderOf v n ts cs2 →
  applyOptions cs1 o = applyOptions cs2 o
  ∧ version (opts_rootOptions (applyOptions cs1 o)) = v
  ∧ expectedLength (opts_roleOptions (applyOptions cs1 o)) = n
  ∧ tests (opts_roleOptions (applyOptions cs1 o))
    = tests (opts_roleOptions o) ++ ts
  ∧ (∀ t,
       withRootVersion v (withRoleExpectedLength n o)
       = withRoleExpectedLength n (withRootVersion v o)
       ∧ withRootVersion v (withRoleTest t o)
         = withRoleTest t (withRootVersion v o)
       ∧ withRoleExpectedLength n (withRoleTest t o)
         = withRoleTest t (withRoleExpectedLength n o)).
Proof.
  intros H1 H2.
  rewrite (orderOf_apply v n ts cs1 o H1), (orderOf_apply v n ts cs2 o H2).
  repeat split.
Qed.

End OptionsFacts.

(** Two orders of the same calls, on fresh options. *)
Lemma repoOption_order_independent_witness :
  let t1 := {| Options.test := fun _ => None |} in
  let t2 := {| Options.test := fun bs =>
                 match bs with [] => Some (errNew "empty") | _ => None end |} in
  let o := {| Options.opts_rootOptions := {| Options.version := 0 |};
              Options.opts_roleOptions :=
                {| Options.expectedLength := 0; Options.tests := [] |} |} in
  let cs1 := [Options.CallRootVersion 3; Options.CallRoleExpectedLength 1024;
              Options.CallRoleTest t1; Options.CallRoleTest t2] in
  let cs2 := [Options.CallRoleTest t1; Options.CallRoleExpectedLength 1024;
              Options.CallRoleTest t2; Options.CallRootVersion 3] in
  Options.applyOptions cs1 o = Options.applyOptions cs2 o
  ∧ Options.tests (Options.opts_roleOptions (Options.applyOptions cs2 o)) = [t1; t2].
Proof.
  intros t1 t2 o cs1 cs2.
  assert (H1 : Options.orderOf 3 1024 [t1; t2] cs1) by (split; [reflexivity|reflexivity]).
  assert (H2 : Options.orderOf 3 1024 [t1; t2] cs2).
  { split; [|reflexivity]. unfold cs2; cbn. solve_Permutation. }
  split.
  - apply (repoOption_order_independent 3 1024 [t1; t2] cs1 cs2 o H1 H2).
  - apply (repoOption_order_independent 3 1024 [t1; t2] cs2 cs1 o H2 H1).
Defined.

(** ** Local repository handle *)

Section LocalRepoFacts.

Import LocalRepo.

Lemma os_Stat_wf fs name :
  match os_Stat fs name with
  | (Some _, None) | (None, Some _) => True
  | _ => False
  end.
Proof. unfold os_Stat. by destruct (follow _ _ _). Qed.

(** [os.Stat] follows a symbolic link to what it names. *)
Lemma os_Stat_symlink fs link target fi :
  fs !! link = Some (Symlink target) →
  follow (pred maxSymlinks) fs target = inl fi →
  os_Stat fs link = (Some fi, None).
Proof.
  intros Hl Ht. unfold os_Stat. change maxSymlinks with (S (pred maxSymlinks)).
  cbn [follow]. by rewrite Hl, Ht.
Qed.

(** C8: [newLocalRepo] on a path that does not exist returns an error; on a
    file that is not a directory it returns an error; on a directory, also
    one reached through a symbolic link, it returns a handle whose
    [baseDir] is the path given. *)
Theorem newLocalRepo_validates fs path :
  (os_Stat fs path = (None, Some (PathError "stat" path ENOENT)) →
   newLocalRepo fs path =
   Return (Err (Wrap (Wrap (PathError "stat" path ENOENT)
                        "tuf repo path validation failed") "new tuf repo")))
  ∧ (os_Stat fs path = (Some {| IsDir := false |}, None) →
     newLocalRepo fs path =
     Return (Err (Wrap (Errorf "tuf repo path %q must be a directory" [path])
                    "new tuf repo")))
  ∧ (os_Stat fs path = (Some {| IsDir := true |}, None) →
     ∃ r, newLocalRepo fs path = Return (Ok r) ∧ baseDir r = path)
  ∧ (∀ target,
       fs !! path = Some (Symlink target) → fs !! target = Some Dir →
       ∃ r, newLocalRepo fs path = Return (Ok r) ∧ baseDir r = path).
Proof.
  assert (Hdir : os_Stat fs path = (Some {| IsDir := true |}, None) →
                 ∃ r, newLocalRepo fs path = Return (Ok r) ∧ baseDir r = path).
  { intros H. unfold newLocalRepo, validatePath. rewrite H. cbn. eauto. }
  repeat split.
  - intros H. unfold newLocalRepo, validatePath. by rewrite H.
  - intros H. unfold newLocalRepo, validatePath. by rewrite H.
  - done.
  - intros target Hl Ht. apply Hdir.
    apply (os_Stat_symlink fs path target); [done|]. cbn. by rewrite Ht.
Qed.

Lemma newLocalRepo_validates_witness :
  (∃ e, newLocalRepo sampleFS "/nowhere" = Return (Err e))
  ∧ (∃ e, newLocalRepo sampleFS "/etc/passwd" = Return (Err e))
  ∧ (∃ r, newLocalRepo sampleFS "/var/tuf" = Return (Ok r)
          ∧ baseDir r = "/var/tuf")
  ∧ (∃ r, newLocalRepo sampleFS "/srv/tuf" = Return (Ok r)
          ∧ baseDir r = "/srv/tuf").
Proof.
  split; [|split; [|split]].
  - eexists.
    apply (proj1 (newLocalRepo_validates sampleFS "/nowhere")).
    vm_compute. reflexivity.
  - eexists.
    apply (proj1 (proj2 (newLocalRepo_validates sampleFS "/etc/passwd"))).
    vm_compute. reflexivity.
  - apply (proj1 (proj2 (proj2 (newLocalRepo_validates sampleFS "/var/tuf")))).
    vm_compute. reflexivity.
  - apply (proj2 (proj2 (proj2 (newLocalRepo_validates sampleFS "/srv/tuf")))
             "/var/tuf"); vm_compute; reflexivity.
Defined.

(** C10: when [os.Stat] fails with anything but does-not-exist,
    [validatePath] calls [IsDir] on the nil [FileInfo] and panics, and so
    does [newLocalRepo]: no error value is returned. *)
Theorem validatePath_panics_on_other_errors fs path e :
  os_Stat fs path = (None, Some (PathError "stat" path e)) → e ≠ ENOENT →
  validatePath fs path = Panic nilDereference
  ∧ newLocalRepo fs path = Panic nilDereference.
Proof.
  intros H He. unfold newLocalRepo, validatePath. rewrite H.
  by destruct e.
Qed.

Lemma validatePath_panics_on_other_errors_witness :
  validatePath sampleFS "/root/tuf" = Panic nilDereference
  ∧ newLocalRepo sampleFS "/root/tuf" = Panic nilDereference.
Proof.
  apply (validatePath_panics_on_other_errors sampleFS "/root/tuf" EACCES).
  - vm_compute. reflexivity.
  - discriminate.
Defined.

End LocalRepoFacts.

(** ** Role identity *)

Section RoleIdentityFacts.

Import RoleIdentity.

Implicit Types (w s : list ascii) (k : bool → list ascii → bool).

(** *** The matcher on [roleRegex] *)

Lemma matchk_litL w b s k :
  matchk (litL w) b s k = true ↔
  ∃ rest, s = w ++ rest ∧ k (if w is [] then b else false) rest = true.
Proof.
  revert b s. induction w as [|c w IH]; intros b s; cbn [litL foldr matchk].
  - split; [eauto|]. by intros (rest & -> & H).
  - destruct s as [|c' s]; [split; [done|by intros (? & ? & ?)]|].
    destruct (decide (c = c')) as [<-|Hne].
    + fold (litL w). rewrite IH. split.
      * intros (rest & -> & H). exists rest. split; [done|]. by destruct w.
      * intros (rest & [= ->] & H). exists rest. split; [done|]. by destruct w.
    + split; [done|]. intros (rest & [= Hc Hs] & Hk). done.
Qed.

Lemma iterate_Range lo hi k fuel b s :
  length s ≤ fuel →
  iterate (matchk (Range lo hi)) k fuel b s = true ↔
  ∃ pre rest, s = pre ++ rest ∧ forallb (inRange lo hi) pre = true
              ∧ k (if pre is [] then b else false) rest = true.
Proof.
  revert b s. induction fuel as [|fuel IH]; intros b s Hlen.
  - destruct s; [|cbn in Hlen; lia]. cbn. rewrite orb_false_r. split.
    + intros H. by exists [], [].
    + intros (pre & rest & Hs & _ & H). symmetry in Hs.
      apply app_eq_nil in Hs as [-> ->]. done.
  - cbn [iterate matchk]. rewrite orb_true_iff. split.
    + intros [H|H]; [by exists [], s|].
      destruct s as [|c s]; [done|].
      destruct (inRange lo hi c) eqn:Hc; [|done].
      cbn [length] in H. rewrite (proj2 (Nat.ltb_lt _ _)) in H by lia.
      apply IH in H as (pre & rest & -> & Hpre & H); [|cbn in Hlen; lia].
      exists (c :: pre), rest. cbn. rewrite Hc, Hpre. split; [done|]. split; [done|].
      by destruct pre.
    + intros (pre & rest & -> & Hpre & H).
      destruct pre as [|c pre]; [by left|right]. cbn in Hpre.
      apply andb_true_iff in Hpre as [Hc Hpre]. cbn [app]. rewrite Hc.
      cbn [length]. rewrite (proj2 (Nat.ltb_lt _ _)) by lia.
      apply IH; [cbn in Hlen; lia|]. exists pre, rest. split; [done|]. split; [done|].
      by destruct pre.
Qed.

Lemma matchk_Eol b s k : matchk Eol b s k = true ↔ s = [] ∧ k b [] = true.
Proof. destruct s; cbn; [tauto|]. split; [done|]. by intros [? _]. Qed.

Lemma matchk_Bol_Cat r b s k :
  matchk (Cat Bol r) b s k = true ↔ b = true ∧ matchk r b s k = true.
Proof. cbn [matchk]. by rewrite andb_true_iff. Qed.

Lemma matchk_word (word : string) b s :
  matchk (Cat (lit word) Eol) b s ktrue = true ↔ s = list_ascii_of_string word.
Proof.
  cbn [matchk]. unfold lit. rewrite matchk_litL. split.
  - intros (rest & -> & [-> _]%matchk_Eol). by rewrite app_nil_r.
  - intros ->. exists []. rewrite app_nil_r. split; [done|]. reflexivity.
Qed.

Lemma matchk_Star_Range lo hi b s k :
  matchk (Star (Range lo hi)) b s k = true ↔
  ∃ pre rest, s = pre ++ rest ∧ forallb (inRange lo hi) pre = true
              ∧ k (if pre is [] then b else false) rest = true.
Proof. cbn [matchk]. by apply iterate_Range. Qed.

Lemma matchk_Plus_Range lo hi b s k :
  matchk (Plus (Range lo hi)) b s k = true ↔
  ∃ pre rest, pre ≠ [] ∧ s = pre ++ rest ∧ forallb (inRange lo hi) pre = true
              ∧ k false rest = true.
Proof.
  cbn [matchk]. split.
  - destruct s as [|c s]; [done|]. destruct (inRange lo hi c) eqn:Hc; [|done].
    intros (pre & rest & -> & Hpre & H)%iterate_Range; [|done].
    exists (c :: pre), rest. cbn. rewrite Hc, Hpre.
    repeat split; [done|]. by destruct pre.
  - intros (pre & rest & Hne & -> & Hpre & H).
    destruct pre as [|c pre]; [done|]. cbn in Hpre.
    apply andb_true_iff in Hpre as [Hc Hpre]. cbn [app]. rewrite Hc.
    apply iterate_Range; [done|]. exists pre, rest. repeat split; [done|].
    by destruct pre.
Qed.

Lemma inRange_19_digit c : inRange "1"%char "9"%char c = true → isDigit c = true.
Proof.
  unfold isDigit, inRange. rewrite !andb_true_iff, !Nat.leb_le.
  change (nat_of_ascii "1") with 49. change (nat_of_ascii "0") with 48. lia.
Qed.

Lemma forallb_19_digit w :
  forallb (inRange "1"%char "9"%char) w = true → forallb isDigit w = true.
Proof.
  induction w as [|c w IH]; [done|]. cbn. rewrite !andb_true_iff.
  intros [Hc Hw]. split; [by apply inRange_19_digit|by apply IH].
Qed.

Lemma matchk_Cat r1 r2 b s k :
  matchk (Cat r1 r2) b s k = matchk r1 b s (λ b' s', matchk r2 b' s' k).
Proof. reflexivity. Qed.

Lemma matchk_Alt r1 r2 b s k :
  matchk (Alt r1 r2) b s k = matchk r1 b s k || matchk r2 b s k.
Proof. reflexivity. Qed.

Lemma matchk_versioned b s :
  matchk (Cat (Star (Range "1"%char "9"%char))
            (Cat (Plus (Range "0"%char "9"%char)) (Cat (lit ".root") Eol)))
    b s ktrue = true ↔
  ∃ ds, ds ≠ [] ∧ forallb isDigit ds = true ∧ s = versionOf ds.
Proof.
  rewrite matchk_Cat, matchk_Star_Range. split.
  - intros (p1 & rest1 & -> & Hp1 & H). cbv beta in H.
    rewrite matchk_Cat in H.
    apply matchk_Plus_Range in H as (p2 & rest2 & Hne & -> & Hp2 & H).
    cbv beta in H. apply matchk_word in H as ->.
    exists (p1 ++ p2). split; [by destruct p1, p2|]. split.
    + rewrite forallb_app. apply andb_true_iff.
      split; [by apply forallb_19_digit|done].
    + unfold versionOf. by rewrite app_assoc.
  - intros (ds & Hne & Hds & ->). exists [], (versionOf ds).
    split; [done|]. split; [done|]. cbv beta.
    rewrite matchk_Cat. apply matchk_Plus_Range.
    exists ds, (list_ascii_of_string ".root").
    split; [done|]. split; [done|]. split; [done|]. cbv beta. by apply matchk_word.
Qed.

Lemma searchFrom_roleRegex_inside s : searchFrom roleRegex false s = false.
Proof. induction s as [|c s IH]; [done|]. cbn [searchFrom]. by rewrite IH. Qed.

Lemma MatchString_roleRegex r :
  MatchString roleRegex r = true ↔
  r = "root" ∨ r = "snapshot" ∨ r = "timestamp" ∨ r = "targets"
  ∨ ∃ ds, ds ≠ [] ∧ forallb isDigit ds = true
          ∧ list_ascii_of_string r = versionOf ds.
Proof.
  assert (Hword : ∀ word : string,
            list_ascii_of_string r = list_ascii_of_string word ↔ r = word).
  { intros word. split; [|by intros ->]. intros H.
    by rewrite <- (string_of_list_ascii_of_string r), H,
         string_of_list_ascii_of_string. }
  unfold MatchString.
  assert (Hsearch : searchFrom roleRegex true (list_ascii_of_string r)
                    = matchk roleRegex true (list_ascii_of_string r) ktrue).
  { destruct (list_ascii_of_string r) as [|c s]; cbn [searchFrom];
      [by rewrite orb_false_r|].
    by rewrite searchFrom_roleRegex_inside, orb_false_r. }
  rewrite Hsearch. unfold roleRegex.
  rewrite !matchk_Alt, !orb_true_iff, !matchk_Bol_Cat, !matchk_word,
    matchk_versioned, !Hword.
  intuition.
Qed.

Lemma validateRole_None r : validateRole r = None ↔ MatchString roleRegex r = true.
Proof. unfold validateRole. by destruct (MatchString roleRegex r). Qed.

Lemma isDigit_not_dot c : isDigit c = true → c ≠ "."%char.
Proof. intros H ->. by vm_compute in H. Qed.

Lemma splitDot_digits ds rest :
  forallb isDigit ds = true → splitDot (ds ++ "."%char :: rest) = Some (ds, rest).
Proof.
  induction ds as [|c ds IH]; cbn; [done|].
  intros [Hc Hds]%andb_true_iff.
  rewrite decide_False by by apply isDigit_not_dot. by rewrite IH.
Qed.

Lemma splitDot_Some w n rest :
  splitDot w = Some (n, rest) → w = n ++ "."%char :: rest.
Proof.
  revert n. induction w as [|c w IH]; intros n; cbn; [done|].
  destruct (decide (c = "."%char)) as [->|Hne].
  - by intros [= <- <-].
  - destruct (splitDot w) as [[a b]|]; [|done].
    intros [= <- <-]. cbn. by rewrite (IH a).
Qed.

Lemma spec_positiveInt_digits ds :
  spec_positiveInt ds = true → ds ≠ [] ∧ forallb isDigit ds = true.
Proof.
  destruct ds as [|c ds]; [done|]. cbn. intros [Hc Hds]%andb_true_iff.
  split; [done|]. by rewrite (inRange_19_digit c Hc).
Qed.

Lemma spec_versionedRoot_true r :
  spec_versionedRoot r = true ↔
  ∃ ds, spec_positiveInt ds = true ∧ list_ascii_of_string r = versionOf ds.
Proof.
  unfold spec_versionedRoot, versionOf. split.
  - destruct (splitDot (list_ascii_of_string r)) as [[n rest]|] eqn:Hsplit; [|done].
    intros [Hn Hrest%bool_decide_eq_true]%andb_true_iff.
    apply splitDot_Some in Hsplit. exists n. split; [done|]. by rewrite Hsplit, Hrest.
  - intros (ds & Hds & ->).
    change (list_ascii_of_string ".root")
      with ("."%char :: list_ascii_of_string "root").
    rewrite splitDot_digits by by apply spec_positiveInt_digits.
    rewrite Hds. by rewrite bool_decide_eq_true_2.
Qed.

(** Every name of the grammar is accepted. *)
Lemma validateRole_accepts_grammar r :
  spec_validRoleName r = true → validateRole r = None.
Proof.
  unfold spec_validRoleName. rewrite !orb_true_iff, !bool_decide_eq_true.
  rewrite validateRole_None, MatchString_roleRegex, spec_versionedRoot_true.
  intros [[[[?|(ds & Hds & ?)]|?]|?]|?]; auto.
  apply spec_positiveInt_digits in Hds as [? ?]. eauto 10.
Qed.

Lemma digit_zero c :
  isDigit c = true → inRange "1"%char "9"%char c = false → c = "0"%char.
Proof.
  unfold isDigit, inRange. rewrite andb_true_iff, andb_false_iff, !Nat.leb_le, !Nat.leb_gt.
  change (nat_of_ascii "1") with 49. change (nat_of_ascii "0") with 48.
  change (nat_of_ascii "9") with 57.
  intros H1 H2. assert (H : nat_of_ascii c = 48) by lia.
  by rewrite <- (ascii_nat_embedding c), H.
Qed.

(** The names accepted beyond the grammar are the versioned roots whose
    version starts with a zero. *)
Lemma validateRole_beyond_grammar r :
  validateRole r = None ∧ spec_validRoleName r = false ↔
  ∃ ds, forallb isDigit ds = true
        ∧ list_ascii_of_string r = versionOf ("0"%char :: ds).
Proof.
  rewrite validateRole_None, MatchString_roleRegex. split.
  - intros [Hcode Hspec].
    destruct Hcode as [->|[->|[->|[->|(ds & Hne & Hds & Hr)]]]];
      [by vm_compute in Hspec..|].
    destruct ds as [|c ds]; [done|]. cbn in Hds.
    apply andb_true_iff in Hds as [Hc Hds].
    destruct (inRange "1"%char "9"%char c) eqn:H19.
    + assert (Hv : spec_versionedRoot r = true).
      { apply spec_versionedRoot_true. exists (c :: ds). split; [|done].
        cbn. by rewrite H19, Hds. }
      unfold spec_validRoleName in Hspec. rewrite Hv in Hspec.
      by rewrite orb_true_r in Hspec.
    + rewrite (digit_zero c Hc H19) in Hr. eauto.
  - intros (ds & Hds & Hr). split.
    + right; right; right; right. exists ("0"%char :: ds). split; [done|]. by split.
    + unfold spec_validRoleName, spec_versionedRoot. rewrite Hr. unfold versionOf.
      change (list_ascii_of_string ".root")
        with ("."%char :: list_ascii_of_string "root").
      rewrite (splitDot_digits ("0"%char :: ds)) by done.
      assert (Hword : ∀ word : string,
                list_ascii_of_string word
                ≠ ("0"%char :: ds) ++ "."%char :: list_ascii_of_string "root"
                → bool_decide (r = word) = false).
      { intros word Hw. apply bool_decide_eq_false. intros ->. by rewrite Hr in Hw. }
      rewrite !Hword by (cbn; congruence). done.
Qed.

(** [validateRole] on the names of the grammar. *)
Example validateRole_accepts :
  map validateRole ["root"; "1.root"; "42.root"; "snapshot"; "timestamp"; "targets"]
  = [None; None; None; None; None; None].
Proof. vm_compute. reflexivity. Qed.

Example validateRole_rejects :
  map (fun r => bool_decide (validateRole r = None))
      ["targets/a"; ".root"; "x.root"; "1.root.root"; "root "; "Root"; "1xroot"]
  = [false; false; false; false; false; false; false].
Proof. vm_compute. reflexivity. Qed.

(** C6: the version of a versioned root is matched by [[1-9]*[0-9]+], which
    is any non-empty string of digits: [validateRole] accepts [0.root],
    which the grammar, whose version is a positive integer, excludes. *)
Theorem validateRole_accepts_zero_root :
  spec_validRoleName "0.root" = false ∧ validateRole "0.root" = None.
Proof. split; vm_compute; reflexivity. Qed.

(** C7, as amended: [isRoleCorrect] returns exactly when the value is a Root
    and the role is [root], a Targets and the role is [targets], a Timestamp
    and the role is [timestamp], or a Snapshot and the role is [snapshot];
    on every other pair of role and value it panics. *)
Theorem isRoleCorrect_exact (r : role) (s : dynType) :
  (isRoleCorrect r s = Return tt ↔
     (s = TRoot ∨ s = TPtrRoot) ∧ r = roleRoot
     ∨ (s = TTargets ∨ s = TPtrTargets) ∧ r = roleTargets
     ∨ (s = TTimestamp ∨ s = TPtrTimestamp) ∧ r = roleTimestamp
     ∨ (s = TSnapshot ∨ s = TPtrSnapshot) ∧ r = roleSnapshot)
  ∧ (isRoleCorrect r s = Return tt
     ∨ isRoleCorrect r s
       = Panic "Programmer error! Role name and role type mismatch.").
Proof.
  unfold isRoleCorrect. split.
  - destruct s; cbn [negb]; try case_bool_decide; cbn [negb];
      (split; [intros Hret | intros Hcase]); try discriminate; try reflexivity;
      try (exfalso; intuition congruence); try (intuition congruence).
  - destruct s; cbn [negb]; try case_bool_decide; cbn [negb]; auto.
Qed.

(** C7, as stated, fails: a Root fetched under a versioned root name, and a
    Targets fetched under the name of a delegated role, are pairs the
    specification expects, and [isRoleCorrect] panics on both. *)
Lemma isRoleCorrect_versioned_root_panics :
  spec_roleMatchesType "1.root" TRoot = true
  ∧ isRoleCorrect "1.root" TRoot ≠ Return tt
  ∧ spec_roleMatchesType "targets/a" TTargets = true
  ∧ isRoleCorrect "targets/a" TTargets ≠ Return tt.
Proof. repeat split; vm_compute; congruence. Qed.

End RoleIdentityFacts.

(** ** Delegation resolver *)

Section ResolverFacts.

Import RoleIdentity Resolver.

Context {FIM : Type}.

Implicit Types (rt root : RootTarget FIM) (targ : Targets FIM).
Implicit Types (vs : list (string * Targets FIM)).
Implicit Types (l ext : list (string * result (Targets FIM))).

(** *** [append] and [replay] *)

(** Claiming the files of a role one by one is a union that prefers what
    is already there. *)
Lemma map_fold_claim (owned files : gmap string FIM) :
  map_fold claim owned files = owned ∪ files.
Proof.
  apply (map_fold_weak_ind (λ r m, r = owned ∪ m)).
  - by rewrite (right_id_L ∅ (∪)).
  - intros path fim m r Hfresh ->. unfold claim.
    rewrite lookup_union_l by done.
    destruct (owned !! path) as [old|] eqn:Howned.
    + apply map_eq. intros p. rewrite !lookup_union.
      destruct (decide (p = path)) as [->|Hne].
      * by rewrite Howned, lookup_insert_eq, Hfresh.
      * by rewrite lookup_insert_ne.
    + by rewrite insert_union_r.
Qed.

Lemma append_paths rt role targ :
  paths (append rt role targ) = paths rt ∪ signed_Targets (Signed targ).
Proof. apply map_fold_claim. Qed.

Lemma append_targetLookup rt role targ :
  targetLookup (append rt role targ) = <[role := targ]> (targetLookup rt).
Proof. reflexivity. Qed.

Lemma append_root_Targets rt role targ :
  root_Targets (append rt role targ) = root_Targets rt.
Proof. reflexivity. Qed.

Lemma replay_app rt vs1 vs2 :
  replay rt (vs1 ++ vs2) = replay (replay rt vs1) vs2.
Proof. apply fold_left_app. Qed.

Lemma replay_cons rt v vs :
  replay rt (v :: vs) = replay (append rt v.1 v.2) vs.
Proof. reflexivity. Qed.

Lemma replay_root_Targets rt vs : root_Targets (replay rt vs) = root_Targets rt.
Proof.
  revert rt. induction vs as [|v vs IH]; intros rt; [done|].
  by rewrite replay_cons, IH.
Qed.

(** A path that is owned stays with its owner. *)
Lemma replay_paths_owned rt vs path fim :
  paths rt !! path = Some fim → paths (replay rt vs) !! path = Some fim.
Proof.
  revert rt. induction vs as [|v vs IH]; intros rt Hown; [done|].
  rewrite replay_cons. apply IH. rewrite append_paths.
  by apply lookup_union_Some_l.
Qed.

(** A path that nobody owns goes to the first role that claims it. *)
Lemma replay_paths_first rt pre name targ post path fim :
  paths rt !! path = None →
  (∀ v, v ∈ pre → signed_Targets (Signed v.2) !! path = None) →
  signed_Targets (Signed targ) !! path = Some fim →
  paths (replay rt (pre ++ (name, targ) :: post)) !! path = Some fim.
Proof.
  revert rt. induction pre as [|v pre IH]; intros rt Hfree Hpre Hclaim.
  - cbn [app]. rewrite replay_cons. apply replay_paths_owned.
    rewrite append_paths. cbn. by rewrite lookup_union_r.
  - cbn [app]. rewrite replay_cons. apply IH; [|intros w Hw; apply Hpre; by right|done].
    rewrite append_paths. apply lookup_union_None. split; [done|].
    apply Hpre. by left.
Qed.

(** The role lookup has the roles that were recorded. *)
Lemma replay_targetLookup_dom rt vs :
  dom (targetLookup (replay rt vs)) = dom (targetLookup rt) ∪ list_to_set vs.*1.
Proof.
  revert rt. induction vs as [|v vs IH]; intros rt.
  - cbn. by rewrite (right_id_L ∅ (∪)).
  - rewrite replay_cons, IH, append_targetLookup, dom_insert_L. cbn. set_solver.
Qed.

(** *** Records of calls *)

Lemma visits_app l1 l2 : visits (l1 ++ l2) = visits l1 ++ visits l2.
Proof.
  induction l1 as [|[name [targ|e]] l1 IH]; cbn; [done| |done].
  by rewrite IH.
Qed.

Lemma elem_of_visits name targ l : (name, targ) ∈ visits l ↔ (name, Ok targ) ∈ l.
Proof.
  induction l as [|[n [t|e]] l IH]; cbn.
  - by rewrite !elem_of_nil.
  - rewrite !elem_of_cons, IH. split; (intros [?|?]; [left; congruence|by right]).
  - rewrite elem_of_cons, IH. split; [by right|]. by intros [?|?].
Qed.

Lemma nonfatal_nil : nonfatal (@nil (string * result (Targets FIM))).
Proof. intros name e H. by apply elem_of_nil in H. Qed.

Lemma nonfatal_app l1 l2 : nonfatal (l1 ++ l2) ↔ nonfatal l1 ∧ nonfatal l2.
Proof.
  unfold nonfatal. split.
  - intros H. split; intros name e Hin; apply (H name); apply elem_of_app; auto.
  - intros [H1 H2] name e Hin. apply elem_of_app in Hin as [?|?]; eauto.
Qed.

Lemma nonfatal_ok name targ : nonfatal [(name, Ok targ)].
Proof. intros n e H. apply list_elem_of_singleton in H. congruence. Qed.

Lemma nonfatal_seen name : nonfatal [(name, @Err (Targets FIM) errTargetSeen)].
Proof. intros n e H. apply list_elem_of_singleton in H. congruence. Qed.

Section Runs.

Context {F : Type} `{!roleFetcher FIM F}.

Lemma run_app (f f'' : F) l1 l2 :
  run f (l1 ++ l2) f'' ↔ ∃ f', run f l1 f' ∧ run f' l2 f''.
Proof.
  revert f. induction l1 as [|[name r] l1 IH]; intros f; cbn.
  - split; [eauto|]. by intros (f' & -> & H).
  - split.
    + intros (f1 & Hf & (f' & H1 & H2)%IH). eauto.
    + intros (f' & (f1 & Hf & H1) & H2). exists f1. split; [done|].
      apply IH. eauto.
Qed.

End Runs.

(** *** The calls of a traversal *)

Section Traces.

Context {F : Type} `{!roleFetcher FIM F}.

Implicit Types (lf : logged FIM F).

Lemma Trace_refl lf root : Trace lf root lf root None.
Proof.
  exists []. rewrite app_nil_r. repeat split. apply nonfatal_nil.
Qed.

(** A visit that returned no error, or the sentinel, followed by more. *)
Lemma Trace_seq lf1 root1 lf2 root2 err1 lf3 root3 err2 :
  Trace lf1 root1 lf2 root2 err1 →
  err1 = None ∨ err1 = Some errTargetSeen →
  Trace lf2 root2 lf3 root3 err2 →
  Trace lf1 root1 lf3 root3 err2.
Proof.
  intros (ext1 & Hc1 & Hr1 & -> & Hs1) Herr1 (ext2 & Hc2 & Hr2 & -> & Hs2).
  assert (Hnf1 : nonfatal ext1).
  { destruct Herr1 as [-> | ->]; [done|].
    destruct Hs1 as (pre & name & -> & Hpre).
    apply nonfatal_app. split; [done|apply nonfatal_seen]. }
  exists (ext1 ++ ext2). split; [|split; [|split]].
  - by rewrite Hc2, Hc1, app_assoc.
  - apply run_app. eauto.
  - by rewrite visits_app, replay_app.
  - destruct err2 as [e|]; cbn in *.
    + destruct Hs2 as (pre & name & -> & Hpre).
      exists (ext1 ++ pre), name. split; [by rewrite app_assoc|].
      by apply nonfatal_app.
    + by apply nonfatal_app.
Qed.

(** One call of the recording fetcher. *)
Lemma fetch_logged lf name :
  fetch lf name =
  ({| inner := (fetch (inner lf) name).1;
      calls := calls lf ++ [(name, (fetch (inner lf) name).2)] |},
   (fetch (inner lf) name).2).
Proof. cbn. by destruct (fetch (inner lf) name). Qed.

Lemma Trace_fetch_err lf root name e :
  (fetch (inner lf) name).2 = Err e →
  Trace lf root (fetch lf name).1 root (Some e).
Proof.
  intros He. rewrite fetch_logged. cbn. exists [(name, Err e)].
  rewrite He. split; [done|]. split; [|split].
  - cbn. exists (fetch (inner lf) name).1. split; [|done].
    rewrite <- He. by destruct (fetch (inner lf) name).
  - done.
  - exists [], name. split; [done|apply nonfatal_nil].
Qed.

Lemma Trace_fetch_ok lf root name targ :
  (fetch (inner lf) name).2 = Ok targ →
  Trace lf root (fetch lf name).1 (append root name targ) None.
Proof.
  intros Hok. rewrite fetch_logged. cbn. exists [(name, Ok targ)].
  rewrite Hok. split; [done|]. split; [|split].
  - cbn. exists (fetch (inner lf) name).1. split; [|done].
    rewrite <- Hok. by destruct (fetch (inner lf) name).
  - done.
  - apply nonfatal_ok.
Qed.

Lemma delegatedLoop_Trace visit roles lf root lf' root' err :
  traced visit →
  delegatedLoop visit roles lf root = Some (lf', root', err) →
  Trace lf root lf' root' err.
Proof.
  intros Hvisit. revert lf root.
  induction roles as [|role roles IH]; intros lf root Hloop; cbn in Hloop.
  - injection Hloop as <- <- <-. apply Trace_refl.
  - destruct (visit lf root (Name role)) as [[[lf1 root1] err1]|] eqn:Hv;
      [|discriminate].
    apply Hvisit in Hv.
    destruct (decide (err1 = Some errTargetSeen)) as [->|Hne].
    + eapply Trace_seq; [exact Hv|by right|by apply IH].
    + destruct err1 as [e|].
      * by injection Hloop as <- <- <-.
      * eapply Trace_seq; [exact Hv|by left|by apply IH].
Qed.

Lemma getDelegatedTarget_Trace fuel : traced (getDelegatedTarget fuel).
Proof.
  induction fuel as [|fuel IH]; intros lf root name lf' root' err Hrun;
    [discriminate|].
  cbn [getDelegatedTarget] in Hrun.
  destruct (fetch lf name) as [lf1 r] eqn:Hfetch.
  pose proof (fetch_logged lf name) as Hlog. rewrite Hfetch in Hlog.
  injection Hlog as Hlf1 Hr.
  destruct r as [target|e].
  - eapply Trace_seq; [|by left|eapply delegatedLoop_Trace; [exact IH|exact Hrun]].
    replace lf1 with (fetch lf name).1 by (by rewrite Hfetch).
    by apply Trace_fetch_ok.
  - injection Hrun as <- <- <-.
    replace lf1 with (fetch lf name).1 by (by rewrite Hfetch).
    by apply Trace_fetch_err.
Qed.

Lemma topLoop_Trace visit roles lf root lf' root' err :
  traced visit →
  topLoop visit roles lf root = Some (lf', root', err) →
  Trace lf root lf' root' err.
Proof.
  intros Hvisit. revert lf root.
  induction roles as [|role roles IH]; intros lf root Hloop; cbn in Hloop.
  - injection Hloop as <- <- <-. apply Trace_refl.
  - destruct (visit lf root (Name role)) as [[[lf1 root1] err1]|] eqn:Hv;
      [|discriminate].
    apply Hvisit in Hv. destruct err1 as [e|].
    + by injection Hloop as <- <- <-.
    + eapply Trace_seq; [exact Hv|by left|by apply IH].
Qed.

(** The calls of a resolution: the first is that of the top-level role; on
    success no call failed with anything but the sentinel and the tree is
    that of the visits, in order; on failure the error is that of the last
    call. *)
Lemma targetTreeBuilder_Trace fuel lf lf' res :
  targetTreeBuilder fuel lf = Some (lf', res) →
  ∃ ext,
    calls lf' = calls lf ++ ext
    ∧ run (inner lf) ext (inner lf')
    ∧ match res with
      | Ok rt =>
          nonfatal ext
          ∧ ∃ targ rest,
              ext = (roleTargets, Ok targ) :: rest
              ∧ rt = replay (emptyRoot targ) (visits ext)
      | Err e => ∃ pre name, ext = pre ++ [(name, Err e)] ∧ nonfatal pre
      end.
Proof.
  unfold targetTreeBuilder.
  destruct (fetch lf roleTargets) as [lf1 r] eqn:Hfetch.
  pose proof (fetch_logged lf roleTargets) as Hlog. rewrite Hfetch in Hlog.
  injection Hlog as Hlf1 Hr.
  assert (Hlf1' : lf1 = (fetch lf roleTargets).1) by (by rewrite Hfetch).
  destruct r as [targ|e].
  - intros Hrun.
    destruct (topLoop _ _ _ _) as [[[lf2 root2] err2]|] eqn:Hloop; [|discriminate].
    apply topLoop_Trace in Hloop; [|apply getDelegatedTarget_Trace].
    destruct Hloop as (ext & Hc & Hr2 & -> & Hs).
    assert (Hc1 : calls lf1 = calls lf ++ [(roleTargets, Ok targ)])
      by (by rewrite Hlf1, <- Hr).
    assert (Hrun1 : run (inner lf) [(roleTargets, Ok targ)] (inner lf1)).
    { cbn. exists (inner lf1). split; [|done].
      rewrite Hlf1, Hr. cbn. by destruct (fetch (inner lf) roleTargets). }
    exists ((roleTargets, Ok targ) :: ext). split; [|split].
    + destruct err2; injection Hrun as <- <-; by rewrite Hc, Hc1, <- app_assoc.
    + destruct err2; injection Hrun as <- <-;
        apply (run_app _ _ [(roleTargets, Ok targ)] ext); eauto.
    + destruct err2 as [e|]; injection Hrun as <- <-.
      * destruct Hs as (pre & name & -> & Hpre).
        exists ((roleTargets, Ok targ) :: pre), name. split; [done|].
        apply (nonfatal_app [(roleTargets, Ok targ)] pre).
        split; [apply nonfatal_ok|done].
      * split.
        -- apply (nonfatal_app [(roleTargets, Ok targ)] ext).
           split; [apply nonfatal_ok|done].
        -- exists targ, ext. split; [done|]. done.
  - intros Hrun. injection Hrun as <- <-.
    exists [(roleTargets, Err e)]. split; [|split].
    + by rewrite Hlf1, <- Hr.
    + cbn. exists (inner lf1). split; [|done].
      rewrite Hlf1, Hr. cbn. by destruct (fetch (inner lf) roleTargets).
    + exists [], roleTargets. split; [done|apply nonfatal_nil].
Qed.

End Traces.

(** *** Recording the calls does not change the traversal *)

Section Recording.

Context {F : Type} `{!roleFetcher FIM F}.

Implicit Types (lf : logged FIM F).

Lemma delegatedLoop_forget
    (visit : logged FIM F → RootTarget FIM → string → option (visited FIM (logged FIM F)))
    (visit0 : F → RootTarget FIM → string → option (visited FIM F)) roles lf root :
  (∀ lf root name, forget <$> visit lf root name = visit0 (inner lf) root name) →
  forget <$> delegatedLoop visit roles lf root
  = delegatedLoop visit0 roles (inner lf) root.
Proof.
  intros Hvisit. revert lf root.
  induction roles as [|role roles IH]; intros lf root; cbn; [done|].
  rewrite <- Hvisit.
  destruct (visit lf root (Name role)) as [[[lf1 root1] err1]|]; cbn; [|done].
  destruct (decide (err1 = Some errTargetSeen)); [apply IH|].
  destruct err1; [done|apply IH].
Qed.

Lemma getDelegatedTarget_forget fuel lf root name :
  forget <$> getDelegatedTarget fuel lf root name
  = getDelegatedTarget fuel (inner lf) root name.
Proof.
  revert lf root name. induction fuel as [|fuel IH]; intros lf root name; [done|].
  cbn [getDelegatedTarget]. rewrite fetch_logged.
  destruct (fetch (inner lf) name) as [f1 [target|e]]; cbn [fst snd]; [|done].
  by rewrite (delegatedLoop_forget _ (getDelegatedTarget fuel)).
Qed.

Lemma topLoop_forget
    (visit : logged FIM F → RootTarget FIM → string → option (visited FIM (logged FIM F)))
    (visit0 : F → RootTarget FIM → string → option (visited FIM F)) roles lf root :
  (∀ lf root name, forget <$> visit lf root name = visit0 (inner lf) root name) →
  forget <$> topLoop visit roles lf root = topLoop visit0 roles (inner lf) root.
Proof.
  intros Hvisit. revert lf root.
  induction roles as [|role roles IH]; intros lf root; cbn; [done|].
  rewrite <- Hvisit.
  destruct (visit lf root (Name role)) as [[[lf1 root1] [e|]]|]; cbn; [done| |done].
  apply IH.
Qed.

(** The resolution with the recording fetcher is that with the fetcher
    itself. *)
Lemma targetTreeBuilder_forget fuel lf :
  (λ v, (inner v.1, v.2)) <$> targetTreeBuilder fuel lf
  = targetTreeBuilder fuel (inner lf).
Proof.
  unfold targetTreeBuilder. rewrite fetch_logged.
  destruct (fetch (inner lf) roleTargets) as [f1 [targ|e]]; cbn [fst snd]; [|done].
  match goal with
  | |- context [topLoop _ ?roles {| inner := f1; calls := ?l |} ?root] =>
      pose proof (topLoop_forget (getDelegatedTarget fuel) (getDelegatedTarget fuel)
                    roles {| inner := f1; calls := l |} root
                    (getDelegatedTarget_forget fuel)) as Hloop
  end.
  cbn [inner] in Hloop. rewrite <- Hloop.
  by destruct (topLoop _ _ {| inner := f1 |} _) as [[[lf2 root2] [e|]]|].
Qed.

End Recording.

(** *** Errors *)

Section Failures.

Context {F : Type} `{!roleFetcher FIM F}.


End Failures.

(** *** Precedence of paths *)

Section Precedence.

Context {F : Type} `{!roleFetcher FIM F}.

(** Whatever the fetcher: the first role, in the order of the visits, that
    claims a path owns it in the returned tree. *)
Lemma first_visit_owns fuel (f : F) lf' rt pre X targX post path fim :
  targetTreeBuilder fuel {| inner := f; calls := [] |} = Some (lf', Ok rt) →
  visits (calls lf') = pre ++ (X, targX) :: post →
  signed_Targets (Signed targX) !! path = Some fim →
  (∀ v, v ∈ pre → signed_Targets (Signed v.2) !! path = None) →
  paths rt !! path = Some fim.
Proof.
  intros Hrun Hvisits Hclaim Hpre.
  apply targetTreeBuilder_Trace in Hrun as (ext & Hcalls & _ & _ & Hres).
  cbn in Hcalls. subst ext.
  destruct Hres as (targ & rest & _ & ->).
  rewrite Hvisits. by apply replay_paths_first.
Qed.

End Precedence.

(** *** Termination *)

Section Termination.

Context {F : Type} `{!roleFetcher FIM F} (budget : F → nat) `{!Bounded F budget}.

Lemma delegatedLoop_returns n visit roles f root :
  returns budget n visit → budget f ≤ n →
  ∃ f' root' err, delegatedLoop visit roles f root = Some (f', root', err)
                  ∧ budget f' ≤ budget f.
Proof.
  intros Hvisit. revert f root.
  induction roles as [|role roles IH]; intros f root Hn; cbn.
  - eauto.
  - destruct (Hvisit f root (Name role) Hn) as (f1 & root1 & err1 & -> & H1).
    destruct (IH f1 root1) as (f2 & root2 & err2 & Hloop & H2); [lia|].
    destruct (decide (err1 = Some errTargetSeen)).
    + rewrite Hloop. eexists _, _, _. split; [done|lia].
    + destruct err1; [eauto|].
      rewrite Hloop. eexists _, _, _. split; [done|lia].
Qed.

Lemma topLoop_returns n visit roles f root :
  returns budget n visit → budget f ≤ n →
  ∃ f' root' err, topLoop visit roles f root = Some (f', root', err)
                  ∧ budget f' ≤ budget f.
Proof.
  intros Hvisit. revert f root.
  induction roles as [|role roles IH]; intros f root Hn; cbn.
  - eauto.
  - destruct (Hvisit f root (Name role) Hn) as (f1 & root1 & err1 & -> & H1).
    destruct err1; [eauto|].
    destruct (IH f1 root1) as (f2 & root2 & err2 & -> & H2); [lia|].
    eexists _, _, _. split; [done|lia].
Qed.

(** [getDelegatedTarget] returns when it has more fuel than the fetcher has
    budget. *)
Lemma getDelegatedTarget_returns fuel n :
  n < fuel → returns budget n (getDelegatedTarget fuel).
Proof.
  revert n. induction fuel as [|fuel IH]; intros n Hfuel f root name Hn; [lia|].
  cbn [getDelegatedTarget].
  destruct (fetch f name) as [f1 [target|e]] eqn:Hfetch.
  - apply fetch_ok_budget in Hfetch.
    destruct (delegatedLoop_returns (budget f1) (getDelegatedTarget fuel)
                (Roles (signed_Delegations (Signed target))) f1
                (append root name target))
      as (f2 & root2 & err2 & -> & H2); [apply IH; lia|lia|].
    eexists _, _, _. split; [done|lia].
  - apply fetch_err_budget in Hfetch. eauto.
Qed.

(** [targetTreeBuilder] returns when its fuel is at least the budget of the
    fetcher. *)
Lemma targetTreeBuilder_returns fuel f :
  budget f ≤ fuel → ∃ f' res, targetTreeBuilder fuel f = Some (f', res).
Proof.
  intros Hfuel. unfold targetTreeBuilder.
  destruct (fetch f roleTargets) as [f1 [targ|e]] eqn:Hfetch; [|eauto].
  apply fetch_ok_budget in Hfetch.
  match goal with
  | |- context [topLoop ?visit ?roles f1 ?root] =>
      destruct (topLoop_returns (budget f1) visit roles f1 root)
        as (f2 & root2 & err2 & -> & _)
  end.
  - apply getDelegatedTarget_returns. lia.
  - lia.
  - destruct err2; eauto.
Qed.

End Termination.

(** *** The fetcher of a graph *)

Lemma fetch_graph_cases (gf : graphFetcher FIM) name :
  (fetch gf name = (gf, Err errTargetSeen) ∧ name ∈ served gf)
  ∨ (fetch gf name = (gf, Err errNoSuchRole)
     ∧ graph gf !! name = None ∧ name ∉ served gf)
  ∨ (∃ targ,
       fetch gf name
       = ({| graph := graph gf; served := {[name]} ∪ served gf |}, Ok targ)
       ∧ graph gf !! name = Some targ ∧ name ∉ served gf).
Proof.
  cbn. destruct (decide (name ∈ served gf)); [by left|right].
  destruct (graph gf !! name) as [targ|]; [right; eauto|by left].
Qed.

#[local] Instance graph_Bounded : Bounded (graphFetcher FIM) unserved.
Proof.
  split.
  - intros gf name gf' targ Hfetch.
    destruct (fetch_graph_cases gf name)
      as [[H _]|[(H & _ & _)|(t & H & Hg & Hnew)]];
      rewrite H in Hfetch; [congruence|congruence|].
    injection Hfetch as <- _. unfold unserved. cbn.
    apply subset_size.
    assert (name ∈ dom (graph gf)) by (apply elem_of_dom; eauto).
    set_solver.
  - intros gf name gf' e Hfetch.
    destruct (fetch_graph_cases gf name)
      as [[H _]|[(H & _ & _)|(t & H & Hg & Hnew)]];
      rewrite H in Hfetch; [| |congruence].
    + by injection Hfetch as <- _.
    + by injection Hfetch as <- _.
Qed.

#[local] Instance logged_Bounded {F : Type} `{!roleFetcher FIM F}
    (budget : F → nat) `{!Bounded F budget} :
  Bounded (logged FIM F) (λ lf, budget (inner lf)).
Proof.
  split.
  - intros lf name lf' targ Hfetch. rewrite fetch_logged in Hfetch.
    injection Hfetch as <- Hr.
    apply (fetch_ok_budget (inner lf) name _ targ).
    rewrite <- Hr. by destruct (fetch (inner lf) name).
  - intros lf name lf' e Hfetch. rewrite fetch_logged in Hfetch.
    injection Hfetch as <- Hr.
    apply (fetch_err_budget (inner lf) name _ e).
    rewrite <- Hr. by destruct (fetch (inner lf) name).
Qed.

(** What a run of the fetcher of a graph has served: each role once, none
    of those served before. *)
Lemma graph_run (gf gf' : graphFetcher FIM) l :
  run gf l gf' →
  NoDup (visitedRoles l)
  ∧ (∀ name, name ∈ visitedRoles l → name ∉ served gf)
  ∧ served gf' = served gf ∪ list_to_set (visitedRoles l).
Proof.
  unfold visitedRoles.
  revert gf. induction l as [|[name r] l IH]; intros gf Hrun; cbn [run] in Hrun.
  - subst gf'. cbn. split; [constructor|].
    split; [by intros ? ?%elem_of_nil|set_solver].
  - destruct Hrun as (gf1 & Hfetch & Hrun).
    apply IH in Hrun as (Hnd & Hfresh & Hserved).
    destruct (fetch_graph_cases gf name)
      as [[H _]|[(H & _ & _)|(t & H & Hg & Hnew)]];
      rewrite H in Hfetch; injection Hfetch as <- <-; [done|done|].
    cbn in *. split; [|split].
    + constructor; [|done]. intros Hin. apply Hfresh in Hin. set_solver.
    + intros n [->|Hin]%elem_of_cons; [done|]. apply Hfresh in Hin. set_solver.
    + rewrite Hserved. set_solver.
Qed.

(** In a list of visits without a repeated role, a role occurs once or not
    at all. *)
Lemma occurrences_NoDup name l :
  NoDup (visitedRoles l) →
  (name ∈ visitedRoles l → occurrences name l = 1)
  ∧ (name ∉ visitedRoles l → occurrences name l = 0).
Proof.
  unfold occurrences, visitedRoles. induction (visits l) as [|[n t] vs IH]; cbn.
  - intros _. split; [by intros ?%elem_of_nil|done].
  - intros [Hn Hnd]%NoDup_cons. destruct (IH Hnd) as [IH1 IH0].
    destruct (decide (n = name)) as [->|Hne].
    + split; [|set_solver]. intros _. cbn. f_equal. by apply IH0.
    + split.
      * intros [?|Hin]%elem_of_cons; [congruence|auto].
      * intros Hout. apply IH0. set_solver.
Qed.

(** C4: over any delegation graph, cyclic or not, with a fetcher that
    reports the sentinel for a role it has served, [targetTreeBuilder]
    returns once its fuel is the number of roles of the graph; and when it
    returns a tree, the roles the fetcher has served are the keys of the
    role lookup, and every key was visited exactly once, every other role
    not at all. *)
Theorem cycle_visited_once (g : gmap string (Targets FIM)) fuel :
  size g ≤ fuel →
  ∃ lf' res,
    targetTreeBuilder fuel (start g) = Some (lf', res)
    ∧ ∀ rt, res = Ok rt →
        served (inner lf') = dom (targetLookup rt)
        ∧ ∀ name,
            (name ∈ dom (targetLookup rt) → occurrences name (calls lf') = 1)
            ∧ (name ∉ dom (targetLookup rt) → occurrences name (calls lf') = 0).
Proof.
  intros Hfuel.
  destruct (targetTreeBuilder_returns (λ lf, unserved (inner lf)) fuel (start g))
    as (lf' & res & Hrun).
  { unfold unserved. cbn. rewrite difference_empty_L, size_dom. done. }
  exists lf', res. split; [done|]. intros rt ->.
  apply targetTreeBuilder_Trace in Hrun as (ext & Hcalls & Hgraph & _ & Hres).
  cbn in Hcalls. subst ext.
  destruct Hres as (targ & rest & _ & ->).
  apply graph_run in Hgraph as (Hnd & _ & Hserved). cbn in Hserved.
  rewrite replay_targetLookup_dom. cbn. rewrite dom_empty_L.
  split; [done|].
  intros name. rewrite (left_id_L ∅ (∪)), elem_of_list_to_set.
  by apply occurrences_NoDup.
Qed.

(** *** The order of the visits is the preorder of the graph *)

Section Preorder.

Implicit Types (lf : logged FIM (graphFetcher FIM)).
Implicit Types (g : gmap string (Targets FIM)).

Lemma visitedRoles_app (l1 l2 : list (string * result (Targets FIM))) :
  visitedRoles (l1 ++ l2) = visitedRoles l1 ++ visitedRoles l2.
Proof. unfold visitedRoles. by rewrite visits_app, fmap_app. Qed.

Lemma fetch_tracks g lf name :
  tracks g lf →
  (name ∈ visitedRoles (calls lf)
   ∧ ∃ lf1, fetch lf name = (lf1, Err errTargetSeen) ∧ tracks g lf1
            ∧ visitedRoles (calls lf1) = visitedRoles (calls lf))
  ∨ (g !! name = None
     ∧ ∃ lf1, fetch lf name = (lf1, Err errNoSuchRole) ∧ tracks g lf1)
  ∨ (∃ targ lf1,
       fetch lf name = (lf1, Ok targ) ∧ g !! name = Some targ
       ∧ tracks g lf1
       ∧ visitedRoles (calls lf1) = visitedRoles (calls lf) ++ [name]
       ∧ name ∉ visitedRoles (calls lf)).
Proof.
  intros [Hg Hs]. rewrite fetch_logged. unfold tracks.
  destruct (fetch_graph_cases (inner lf) name)
    as [[H Hin]|[(H & Hnone & _)|(t & H & Hsome & Hnew)]];
    rewrite H; cbn [fst snd]; [left|right; left|right; right].
  - split; [by rewrite Hs, elem_of_list_to_set in Hin|].
    eexists. split; [done|]. cbn [inner calls].
    rewrite visitedRoles_app. cbn. by rewrite app_nil_r.
  - split; [by rewrite <- Hg|].
    eexists. split; [done|]. cbn [inner calls].
    rewrite visitedRoles_app. cbn. by rewrite app_nil_r.
  - eexists t, _. split; [done|]. split; [by rewrite <- Hg|].
    cbn [inner calls graph served]. rewrite visitedRoles_app. cbn.
    split; [split; [done|]|split; [done|]].
    + rewrite list_to_set_app_L, Hs. set_solver.
    + by rewrite Hs, elem_of_list_to_set in Hnew.
Qed.

Lemma delegatedLoop_preorder g fuel visit roles lf root lf' root' err :
  preordered g fuel visit → tracks g lf →
  delegatedLoop visit roles lf root = Some (lf', root', err) →
  tracks g lf'
  ∧ err ≠ Some errTargetSeen
  ∧ (err = None →
     visitedRoles (calls lf')
     = fold_left (λ acc d, spec_preorder fuel g acc (Name d)) roles
         (visitedRoles (calls lf))).
Proof.
  intros Hvisit. revert lf root.
  induction roles as [|role roles IH]; intros lf root Htr Hloop; cbn in Hloop.
  - by injection Hloop as <- <- <-.
  - destruct (visit lf root (Name role)) as [[[lf1 root1] err1]|] eqn:Hv;
      [|discriminate].
    apply Hvisit in Hv as [Htr1 Hv]; [|done]. cbn [fold_left].
    destruct (decide (err1 = Some errTargetSeen)) as [->|Hne].
    + rewrite <- Hv by by right. by apply (IH lf1 root1).
    + destruct err1 as [e|].
      * injection Hloop as <- <- <-. by split.
      * rewrite <- Hv by by left. by apply (IH lf1 root1).
Qed.

Lemma getDelegatedTarget_preorder g fuel :
  preordered g fuel (getDelegatedTarget fuel).
Proof.
  induction fuel as [|fuel IH]; intros lf root name lf' root' err Htr Hrun;
    [discriminate|].
  cbn [getDelegatedTarget spec_preorder] in *.
  destruct (fetch_tracks g lf name Htr)
    as [(Hin & lf1 & H & Htr1 & Hroles)|[(Hnone & lf1 & H & Htr1)
       |(targ & lf1 & H & Hsome & Htr1 & Hroles & Hnew)]];
    rewrite H in Hrun.
  - injection Hrun as <- <- <-. split; [done|].
    intros _. by rewrite decide_True.
  - injection Hrun as <- <- <-. split; [done|]. intros [?|?]; discriminate.
  - rewrite decide_False, Hsome by done. rewrite <- Hroles.
    apply delegatedLoop_preorder with (g := g) (fuel := fuel) in Hrun
      as (Htr' & Hne & Hord); [|done..].
    split; [done|]. intros [-> | ->]; [auto|done].
Qed.

Lemma topLoop_preorder g fuel visit roles lf root lf' root' :
  preordered g fuel visit → tracks g lf →
  topLoop visit roles lf root = Some (lf', root', None) →
  tracks g lf'
  ∧ visitedRoles (calls lf')
    = fold_left (λ acc d, spec_preorder fuel g acc (Name d)) roles
        (visitedRoles (calls lf)).
Proof.
  intros Hvisit. revert lf root.
  induction roles as [|role roles IH]; intros lf root Htr Hloop; cbn in Hloop.
  - by injection Hloop as <- <-.
  - destruct (visit lf root (Name role)) as [[[lf1 root1] [e|]]|] eqn:Hv;
      [discriminate| |discriminate].
    apply Hvisit in Hv as [Htr1 Hv]; [|done]. cbn [fold_left].
    rewrite <- Hv by by left. by apply (IH lf1 root1).
Qed.

(** A resolution that returns a tree has visited the roles in preorder. *)
Lemma targetTreeBuilder_preorder (g : gmap string (Targets FIM)) fuel lf' rt :
  targetTreeBuilder fuel (start g) = Some (lf', Ok rt) →
  visitedRoles (calls lf') = spec_preorder (S fuel) g [] roleTargets.
Proof.
  unfold targetTreeBuilder. cbn [spec_preorder].
  assert (Htr : tracks g (start g)) by done.
  destruct (fetch_tracks g (start g) roleTargets Htr)
    as [(Hin & lf1 & H & Htr1 & Hroles)|[(Hnone & lf1 & H & Htr1)
       |(targ & lf1 & H & Hsome & Htr1 & Hroles & Hnew)]];
    rewrite H; [discriminate|discriminate|].
  rewrite decide_False, Hsome by done.
  destruct (topLoop _ _ _ _) as [[[lf2 root2] [e|]]|] eqn:Hloop;
    [discriminate| |discriminate].
  intros [= <- <-].
  apply topLoop_preorder with (g := g) (fuel := fuel) in Hloop as [_ Hord];
    [|apply getDelegatedTarget_preorder|done].
  by rewrite Hord, Hroles.
Qed.

(** The roles served are those of the graph, with their metadata. *)
Lemma graph_run_metadata (gf gf' : graphFetcher FIM) l :
  run gf l gf' →
  graph gf' = graph gf
  ∧ ∀ name targ, (name, targ) ∈ visits l → graph gf !! name = Some targ.
Proof.
  revert gf. induction l as [|[name r] l IH]; intros gf Hrun; cbn [run] in Hrun.
  - subst gf'. split; [done|]. by intros ? ? ?%elem_of_nil.
  - destruct Hrun as (gf1 & Hfetch & Hrun).
    apply IH in Hrun as (Hg & Hmeta).
    destruct (fetch_graph_cases gf name)
      as [[H _]|[(H & _ & _)|(t & H & Hsome & _)]];
      rewrite H in Hfetch; injection Hfetch as <- <-; [done|done|].
    cbn in *. split; [done|].
    intros n t' [[= -> ->]|Hin]%elem_of_cons; [done|auto].
Qed.

End Preorder.

(** In a tree returned over a delegation graph, a path has the entry of the
    first role of the preorder that claims it, and not the differing entry
    of a role that comes later. *)
Lemma first_claimant_owns (g : gmap string (Targets FIM)) fuel lf' rt
    pre X post targX path fim :
  targetTreeBuilder fuel (start g) = Some (lf', Ok rt) →
  spec_preorder (S fuel) g [] roleTargets = pre ++ X :: post →
  g !! X = Some targX →
  signed_Targets (Signed targX) !! path = Some fim →
  (∀ W targW, W ∈ pre → g !! W = Some targW →
              signed_Targets (Signed targW) !! path = None) →
  paths rt !! path = Some fim
  ∧ (∀ Y targY fim',
       Y ∈ post → g !! Y = Some targY →
       signed_Targets (Signed targY) !! path = Some fim' →
       fim' ≠ fim → paths rt !! path ≠ Some fim').
Proof.
  intros Hrun Hord HX Hclaim Hpre.
  assert (Hown : paths rt !! path = Some fim).
  { pose proof (targetTreeBuilder_preorder g fuel lf' rt Hrun) as Hvis.
    rewrite Hord in Hvis. unfold visitedRoles in Hvis.
    apply fmap_app_inv in Hvis as (vpre & vrest & -> & Hrest & Hvs).
    symmetry in Hrest.
    apply fmap_cons_inv in Hrest as ([X' targ'] & vpost & -> & -> & ->).
    pose proof Hrun as Htrace.
    apply targetTreeBuilder_Trace in Htrace as (ext & Hcalls & Hgraph & _).
    cbn in Hcalls. subst ext.
    apply graph_run_metadata in Hgraph as [_ Hmeta]. cbn in Hmeta, HX.
    assert (targ' = targX) as ->.
    { assert (Hin : (X', targ') ∈ visits (calls lf'))
        by (rewrite Hvs; set_solver).
      apply Hmeta in Hin. congruence. }
    apply (first_visit_owns fuel {| graph := g; served := ∅ |} lf' rt
             vpre X' targX vpost path fim Hrun Hvs Hclaim).
    intros [W targW] HW. apply (Hpre W targW).
    - apply list_elem_of_fmap. by exists (W, targW).
    - apply Hmeta. rewrite Hvs. set_solver. }
  split; [done|].
  intros Y targY fim' _ _ _ Hne. rewrite Hown. congruence.
Qed.

(** C3, as amended: over any delegation graph, with fuel the number of its
    roles, the resolution returns; and when it returns a tree, for [X]
    before [Y] in the preorder depth-first order of the roles, both
    claiming [path], and no role before [X] claiming it, the path-ownership
    map has the entry of [X] for [path], and not the differing entry of
    [Y]. *)
Theorem first_visit_wins (g : gmap string (Targets FIM)) fuel :
  size g ≤ fuel →
  ∃ lf' res,
    targetTreeBuilder fuel (start g) = Some (lf', res)
    ∧ ∀ rt, res = Ok rt →
        ∀ pre X post targX path fim,
          spec_preorder (S fuel) g [] roleTargets = pre ++ X :: post →
          g !! X = Some targX →
          signed_Targets (Signed targX) !! path = Some fim →
          (∀ W targW, W ∈ pre → g !! W = Some targW →
                      signed_Targets (Signed targW) !! path = None) →
          paths rt !! path = Some fim
          ∧ (∀ Y targY fim',
               Y ∈ post → g !! Y = Some targY →
               signed_Targets (Signed targY) !! path = Some fim' →
               fim' ≠ fim → paths rt !! path ≠ Some fim').
Proof.
  intros Hfuel.
  destruct (targetTreeBuilder_returns (λ lf, unserved (inner lf)) fuel (start g))
    as (lf' & res & Hrun).
  { unfold unserved. cbn. by rewrite difference_empty_L, size_dom. }
  exists lf', res. split; [done|]. intros rt ->.
  intros pre X post targX path fim.
  exact (first_claimant_owns g fuel lf' rt pre X post targX path fim Hrun).
Qed.

(** *** The sentinel and the cap in the two loops *)

Section Loops.

Context {F : Type} `{!roleFetcher FIM F}.

(** The loop of [getDelegatedTarget] skips a delegation whose visit
    returns the sentinel; the loop of [targetTreeBuilder] ends with it. *)
Lemma delegatedLoop_skips_seen
    (visit : F → RootTarget FIM → string → option (visited FIM F))
    d ds f root f1 root1 :
  visit f root (Name d) = Some (f1, root1, Some errTargetSeen) →
  delegatedLoop visit (d :: ds) f root = delegatedLoop visit ds f1 root1.
Proof. intros Hv. cbn. rewrite Hv. by rewrite decide_True. Qed.

Lemma topLoop_fails_seen
    (visit : F → RootTarget FIM → string → option (visited FIM F))
    d ds f root f1 root1 :
  visit f root (Name d) = Some (f1, root1, Some errTargetSeen) →
  topLoop visit (d :: ds) f root = Some (f1, root1, Some errTargetSeen).
Proof. intros Hv. cbn. by rewrite Hv. Qed.

(** Whatever the fetcher: when its answer for a delegation of the
    top-level role is the sentinel, the resolution fails with the
    sentinel. *)
Lemma targetTreeBuilder_fails_seen fuel (f f1 f2 : F) targ d ds :
  fetch f roleTargets = (f1, Ok targ) →
  Roles (signed_Delegations (Signed targ)) = d :: ds →
  fetch f1 (Name d) = (f2, Err errTargetSeen) →
  targetTreeBuilder (S fuel) f = Some (f2, Err errTargetSeen).
Proof.
  intros Htop Hroles Hseen. unfold targetTreeBuilder. rewrite Htop.
  rewrite append_root_Targets. cbn [root_Targets]. rewrite Hroles.
  erewrite topLoop_fails_seen; [done|].
  cbn [getDelegatedTarget]. by rewrite Hseen.
Qed.

Implicit Types (lf : logged FIM F).

(** A visit that returns no error has visited its role. *)
Lemma delegatedLoop_visits_more
    (visit : logged FIM F → RootTarget FIM → string →
             option (visited FIM (logged FIM F)))
    roles lf root lf' root' err :
  (∀ lf root name lf' root' err,
     visit lf root name = Some (lf', root', err) →
     length (visits (calls lf)) ≤ length (visits (calls lf'))) →
  delegatedLoop visit roles lf root = Some (lf', root', err) →
  length (visits (calls lf)) ≤ length (visits (calls lf')).
Proof.
  intros Hvisit. revert lf root.
  induction roles as [|role roles IH]; intros lf root Hloop; cbn in Hloop.
  - by injection Hloop as <- <- <-.
  - destruct (visit lf root (Name role)) as [[[lf1 root1] err1]|] eqn:Hv;
      [|discriminate].
    apply Hvisit in Hv.
    destruct (decide (err1 = Some errTargetSeen)).
    + apply IH in Hloop. lia.
    + destruct err1.
      * by injection Hloop as <- <- <-.
      * apply IH in Hloop. lia.
Qed.

Lemma getDelegatedTarget_visits_more fuel lf root name lf' root' err :
  getDelegatedTarget fuel lf root name = Some (lf', root', err) →
  length (visits (calls lf)) ≤ length (visits (calls lf'))
  ∧ (err = None → length (visits (calls lf)) < length (visits (calls lf'))).
Proof.
  revert lf root name lf' root' err.
  induction fuel as [|fuel IH]; intros lf root name lf' root' err Hrun;
    [discriminate|].
  cbn [getDelegatedTarget] in Hrun. rewrite fetch_logged in Hrun.
  destruct (fetch (inner lf) name) as [f1 [target|e]]; cbn [fst snd] in Hrun.
  - apply delegatedLoop_visits_more in Hrun.
    + cbn [calls] in Hrun. rewrite visits_app, length_app in Hrun. cbn in Hrun. lia.
    + intros ? ? ? ? ? ? Hv. by apply IH in Hv as [Hv _].
  - injection Hrun as <- <- <-. cbn [calls]. rewrite visits_app, length_app. cbn.
    split; [lia|done].
Qed.

Lemma topLoop_visits_all fuel roles lf root lf' root' :
  topLoop (getDelegatedTarget fuel) roles lf root = Some (lf', root', None) →
  length (visits (calls lf)) + length roles ≤ length (visits (calls lf')).
Proof.
  revert lf root. induction roles as [|role roles IH]; intros lf root Hloop;
    cbn in Hloop.
  - injection Hloop as <- <-. cbn. lia.
  - destruct (getDelegatedTarget fuel lf root (Name role))
      as [[[lf1 root1] [e|]]|] eqn:Hv; [discriminate| |discriminate].
    apply getDelegatedTarget_visits_more in Hv as [_ Hv].
    apply IH in Hloop. specialize (Hv eq_refl). cbn. lia.
Qed.

(** Whatever the fetcher: a resolution that returns a tree has visited the
    top-level role and, at least, each of its delegations.  No fetcher can
    have [targetTreeBuilder] return a tree and leave out a delegation of
    the top-level role. *)
Lemma targetTreeBuilder_visits_all fuel lf lf' rt :
  targetTreeBuilder fuel lf = Some (lf', Ok rt) →
  length (visits (calls lf)) + 1
  + length (Roles (signed_Delegations (Signed (root_Targets rt))))
  ≤ length (visits (calls lf')).
Proof.
  unfold targetTreeBuilder. rewrite fetch_logged.
  destruct (fetch (inner lf) roleTargets) as [f1 [targ|e]]; cbn [fst snd];
    [|discriminate].
  destruct (topLoop _ _ _ _) as [[[lf2 root2] [e|]]|] eqn:Hloop;
    [discriminate| |discriminate].
  intros Hrun. injection Hrun as <- <-.
  pose proof Hloop as Hall. apply topLoop_visits_all in Hall.
  apply topLoop_Trace in Hloop as (ext & _ & _ & -> & _);
    [|apply getDelegatedTarget_Trace].
  rewrite replay_root_Targets.
  cbn [calls] in Hall. rewrite visits_app, length_app in Hall. cbn in Hall.
  cbn [root_Targets append]. cbn [root_Targets] in Hall. lia.
Qed.

End Loops.

End ResolverFacts.

(** *** The sample graphs *)

Section ResolverExamples.

Import RoleIdentity Resolver.


(** The diamond and the siblings: [/p] goes to [c], reached through [a]
    before [b] is visited; [/x] goes to [targets/a], the sibling before
    [targets/b]. *)
Lemma first_visit_wins_witness :
  (∃ lf' rt,
     targetTreeBuilder 4 (start diamondGraph) = Some (lf', Ok rt)
     ∧ paths rt !! "/p" = Some "entry of c"
     ∧ paths rt !! "/p" ≠ Some "entry of b")
  ∧ (∃ lf' rt,
       targetTreeBuilder 3 (start siblingGraph) = Some (lf', Ok rt)
       ∧ paths rt !! "/x" = Some "entry of targets/a"
       ∧ paths rt !! "/x" ≠ Some "entry of targets/b").
Proof.
  split.
  - assert (Hsize : size diamondGraph ≤ 4) by (vm_compute; lia).
    destruct (first_visit_wins diamondGraph 4 Hsize) as (lf' & res & Hrun & Hwins).
    assert (Htree : returnsTree (targetTreeBuilder 4 (start diamondGraph)) = true)
      by (vm_compute; reflexivity).
    rewrite Hrun in Htree. destruct res as [rt|e]; [clear Htree|discriminate].
    exists lf', rt. split; [exact Hrun|].
    destruct (Hwins rt eq_refl ["targets"; "a"] "c" ["b"]
                (node [] [("/p", "entry of c")]) "/p" "entry of c")
      as [Hown Hnot].
    + vm_compute; reflexivity.
    + vm_compute; reflexivity.
    + vm_compute; reflexivity.
    + intros W targW HW Hg. cbn in HW.
      apply elem_of_cons in HW as [->|HW];
        [|apply list_elem_of_singleton in HW as ->];
        vm_compute in Hg; injection Hg as <-; vm_compute; reflexivity.
    + split; [exact Hown|].
      apply (Hnot "b" (node ["c"] [("/p", "entry of b")]) "entry of b").
      * by left.
      * vm_compute; reflexivity.
      * vm_compute; reflexivity.
      * discriminate.
  - assert (Hsize : size siblingGraph ≤ 3) by (vm_compute; lia).
    destruct (first_visit_wins siblingGraph 3 Hsize) as (lf' & res & Hrun & Hwins).
    assert (Htree : returnsTree (targetTreeBuilder 3 (start siblingGraph)) = true)
      by (vm_compute; reflexivity).
    rewrite Hrun in Htree. destruct res as [rt|e]; [clear Htree|discriminate].
    exists lf', rt. split; [exact Hrun|].
    destruct (Hwins rt eq_refl ["targets"] "targets/a" ["targets/b"]
                (node [] [("/x", "entry of targets/a")]) "/x" "entry of targets/a")
      as [Hown Hnot].
    + vm_compute; reflexivity.
    + vm_compute; reflexivity.
    + vm_compute; reflexivity.
    + intros W targW HW Hg. apply list_elem_of_singleton in HW as ->.
      vm_compute in Hg. injection Hg as <-. vm_compute; reflexivity.
    + split; [exact Hown|].
      apply (Hnot "targets/b"
               (node [] [("/x", "entry of targets/b"); ("/y", "entry of targets/b")])
               "entry of targets/b").
      * by left.
      * vm_compute; reflexivity.
      * vm_compute; reflexivity.
      * discriminate.
Defined.

(** C3, as stated, fails: in [tripleGraph] the roles [x] and [y] both claim
    [/p] and [x] comes before [y] in preorder, yet the path-ownership map
    of the returned tree has the entry of [w], which comes before both, and
    not that of [x]. *)
Lemma later_pair_does_not_own :
  ∃ lf' rt,
    targetTreeBuilder 4 (start tripleGraph) = Some (lf', Ok rt)
    ∧ spec_preorder 5 tripleGraph [] "targets" = ["targets"; "w"; "x"; "y"]
    ∧ (tripleGraph !! "x" ≫= λ targ, signed_Targets (Signed targ) !! "/p")
      = Some "entry of x"
    ∧ (tripleGraph !! "y" ≫= λ targ, signed_Targets (Signed targ) !! "/p")
      = Some "entry of y"
    ∧ paths rt !! "/p" = Some "entry of w"
    ∧ paths rt !! "/p" ≠ Some "entry of x".
Proof.
  assert (Htree : tally (targetTreeBuilder 4 (start tripleGraph)) ≠ None)
    by (vm_compute; discriminate).
  assert (Hown : (targetTreeBuilder 4 (start tripleGraph)
                  ≫= λ v, match v.2 with
                          | Ok rt => paths rt !! "/p"
                          | Err _ => None
                          end) = Some "entry of w")
    by (vm_compute; reflexivity).
  destruct (targetTreeBuilder 4 (start tripleGraph)) as [[lf' [rt|e]]|];
    [|done..].
  cbn in Hown. exists lf', rt. split; [reflexivity|].
  split; [vm_compute; reflexivity|]. split; [vm_compute; reflexivity|].
  split; [vm_compute; reflexivity|]. split; [exact Hown|].
  rewrite Hown. discriminate.
Qed.

(** The diamond: [c], reached through [a], comes before [b] in preorder; the
    second delegation to [c], from [b], is skipped; [/p] goes to [c]. *)
Example diamond_scenario :
  spec_preorder 4 diamondGraph [] "targets" = ["targets"; "a"; "c"; "b"]
  ∧ ∃ lf' rt,
      targetTreeBuilder 3 (start diamondGraph) = Some (lf', Ok rt)
      ∧ visitedRoles (calls lf') = ["targets"; "a"; "c"; "b"]
      ∧ paths rt !! "/p" = Some "entry of c".
Proof.
  split; [vm_compute; reflexivity|].
  eexists _, _. split; [vm_compute; reflexivity|].
  split; vm_compute; reflexivity.
Qed.

(** The scenario of the two siblings, in full. *)
Example sibling_scenario :
  ∃ lf' rt,
    targetTreeBuilder 2 (start siblingGraph) = Some (lf', Ok rt)
    ∧ paths rt !! "/x" = Some "entry of targets/a"
    ∧ paths rt !! "/y" = Some "entry of targets/b"
    ∧ elements (dom (targetLookup rt)) ≡ₚ ["targets"; "targets/a"; "targets/b"].
Proof.
  eexists _, _. split; [vm_compute; reflexivity|].
  split; [vm_compute; reflexivity|]. split; [vm_compute; reflexivity|].
  vm_compute. solve_Permutation.
Qed.

(** The cycle of A and B: both are visited once. *)
Lemma cycle_visited_once_witness :
  ∃ lf' rt,
    targetTreeBuilder 3 (start cycleGraph) = Some (lf', Ok rt)
    ∧ visitedRoles (calls lf') = ["targets"; "A"; "B"]
    ∧ occurrences "A" (calls lf') = 1
    ∧ occurrences "B" (calls lf') = 1.
Proof.
  assert (Hsize : size cycleGraph ≤ 3) by (vm_compute; lia).
  destruct (cycle_visited_once cycleGraph 3 Hsize) as (lf' & res & Hrun & Hres).
  assert (E : ∃ lf0 rt0,
             targetTreeBuilder 3 (start cycleGraph) = Some (lf0, Ok rt0)
             ∧ visitedRoles (calls lf0) = ["targets"; "A"; "B"]
             ∧ is_Some (targetLookup rt0 !! "A")
             ∧ is_Some (targetLookup rt0 !! "B")).
  { eexists _, _. split; [vm_compute; reflexivity|].
    split; [vm_compute; reflexivity|].
    split; eexists; vm_compute; reflexivity. }
  destruct E as (lf0 & rt0 & E & Hroles & HA & HB).
  rewrite E in Hrun. injection Hrun as <- <-.
  destruct (Hres rt0 eq_refl) as [_ Honce].
  exists lf0, rt0. split; [exact E|]. split; [exact Hroles|].
  split; apply Honce; by apply elem_of_dom.
Defined.

(** The assumption on the fetcher is needed: with a fetcher that never
    reports the sentinel, the resolution of the cycle of A and B exhausts
    every fuel. *)
Lemma cycle_needs_sentinel fuel :
  targetTreeBuilder fuel {| metadata := cycleGraph |} = None.
Proof.
  set (pf := {| metadata := cycleGraph |}).
  assert (Htop : fetch pf "targets" = (pf, Ok (node ["A"] []))) by reflexivity.
  assert (HA : fetch pf "A" = (pf, Ok (node ["B"] [("/x", "entry of A")])))
    by reflexivity.
  assert (HB : fetch pf "B"
               = (pf, Ok (node ["A"] [("/x", "entry of B"); ("/y", "entry of B")])))
    by reflexivity.
  assert (Hloop : ∀ n root,
            getDelegatedTarget n pf root "A" = None
            ∧ getDelegatedTarget n pf root "B" = None).
  { induction n as [|n IH]; intros root; [done|].
    split; cbn [getDelegatedTarget]; [rewrite HA|rewrite HB];
      cbn [node Signed signed_Delegations Roles map delegatedLoop Name].
    - by rewrite (proj2 (IH _)).
    - by rewrite (proj1 (IH _)). }
  unfold targetTreeBuilder. change roleTargets with "targets". rewrite Htop.
  cbn [node Signed signed_Delegations Roles map topLoop Name root_Targets append].
  by rewrite (proj1 (Hloop _ _)).
Qed.

(** C1: the top-level role of [flatGraph 50] delegates to fifty leaf roles.
    [targetTreeBuilder] fetches and records all fifty-one roles, one more
    than [maxDelegationCount]: nothing in the traversal counts the roles
    visited. *)
Theorem delegation_cap_not_enforced :
  ∃ lf' rt,
    targetTreeBuilder 1 (start (flatGraph 50)) = Some (lf', Ok rt)
    ∧ length (visitedRoles (calls lf')) = 51
    ∧ size (targetLookup rt) = 51
    ∧ maxDelegationCount < size (targetLookup rt).
Proof.
  assert (E : tally (targetTreeBuilder 1 (start (flatGraph 50))) = Some (51, 51))
    by (vm_compute; reflexivity).
  destruct (targetTreeBuilder 1 (start (flatGraph 50))) as [[lf' [rt|e]]|];
    [|discriminate..].
  injection E as Hvisits Hsize. exists lf', rt.
  rewrite Hvisits, Hsize. unfold maxDelegationCount. repeat split. lia.
Qed.

(** C2: in [revisitGraph] the role [b] is visited under [a] and then named
    again by the top-level role.  The fetcher reports the sentinel and
    [targetTreeBuilder] returns it as the error of the resolution.  With
    the same delegations one level down, in [nestedRevisitGraph], the loop
    of [getDelegatedTarget] skips the revisit and the resolution succeeds. *)
Theorem top_level_revisit_fails :
  (∃ lf',
     targetTreeBuilder 2 (start revisitGraph) = Some (lf', Err errTargetSeen)
     ∧ (calls lf').*1 = ["targets"; "a"; "b"; "b"])
  ∧ (∃ lf' rt,
       targetTreeBuilder 3 (start nestedRevisitGraph) = Some (lf', Ok rt)
       ∧ (calls lf').*1 = ["targets"; "top"; "a"; "b"; "b"]
       ∧ visitedRoles (calls lf') = ["targets"; "top"; "a"; "b"]).
Proof.
  split.
  - eexists. split; vm_compute; reflexivity.
  - eexists _, _. split; [vm_compute; reflexivity|].
    split; vm_compute; reflexivity.
Qed.

End ResolverExamples.

(** * Further properties *)

(** ** Fetch options *)

Section MoreOptionsFacts.

Import Options.

(** X1: whatever was applied before, the last [withRootVersion] decides the
    pinned version and the last [withRoleExpectedLength] the expected
    length; an option of another kind leaves them as they were; and the
    testers of any sequence of options are those already there followed by
    those of its [withRoleTest], in the order applied: none is dropped. *)
Theorem applyOptions_last_wins cs o :
  (∀ v, version (opts_rootOptions (applyOptions (cs ++ [CallRootVersion v]) o)) = v)
  ∧ (∀ n, expectedLength
            (opts_roleOptions (applyOptions (cs ++ [CallRoleExpectedLength n]) o))
          = n)
  ∧ (∀ c, (∀ v, c ≠ CallRootVersion v) →
          version (opts_rootOptions (applyOptions (cs ++ [c]) o))
          = version (opts_rootOptions (applyOptions cs o)))
  ∧ (∀ c, (∀ n, c ≠ CallRoleExpectedLength n) →
          expectedLength (opts_roleOptions (applyOptions (cs ++ [c]) o))
          = expectedLength (opts_roleOptions (applyOptions cs o)))
  ∧ tests (opts_roleOptions (applyOptions cs o))
    = tests (opts_roleOptions o) ++ testersOf cs.
Proof.
  assert (Hsnoc : ∀ c, applyOptions (cs ++ [c]) o = call c (applyOptions cs o)).
  { intros c. unfold applyOptions. by rewrite fold_left_app. }
  repeat split.
  - intros v. by rewrite Hsnoc.
  - intros n. by rewrite Hsnoc.
  - intros c Hc. rewrite Hsnoc. destruct c; [by destruct (Hc version0)|done..].
  - intros c Hc. rewrite Hsnoc. destruct c; [done| |done]. by destruct (Hc len).
  - by rewrite applyOptions_closed.
Qed.

(** X2: two [withRoleTest] with different testers do not commute: the
    order of application is the order of the tests. *)
Theorem withRoleTest_order_matters t1 t2 o :
  t1 ≠ t2 →
  withRoleTest t2 (withRoleTest t1 o) ≠ withRoleTest t1 (withRoleTest t2 o).
Proof.
  intros Hne Heq. apply (f_equal (λ x, tests (opts_roleOptions x))) in Heq.
  cbn in Heq. rewrite <- !app_assoc in Heq. apply app_inv_head in Heq.
  by injection Heq as ->.
Qed.

End MoreOptionsFacts.

Lemma withRoleTest_order_matters_witness :
  let t1 := {| Options.test := fun _ => None |} in
  let t2 := {| Options.test := fun _ => Some (errNew "rejected") |} in
  let o := {| Options.opts_rootOptions := {| Options.version := 0 |};
              Options.opts_roleOptions :=
                {| Options.expectedLength := 0; Options.tests := [] |} |} in
  Options.withRoleTest t2 (Options.withRoleTest t1 o)
  ≠ Options.withRoleTest t1 (Options.withRoleTest t2 o).
Proof.
  intros t1 t2 o. apply (withRoleTest_order_matters t1 t2 o).
  intros H. apply (f_equal (λ t, Options.test t [])) in H. discriminate.
Defined.

(** ** Local repository handle *)

Section MoreLocalRepoFacts.

Import LocalRepo.

(** X3: [newLocalRepo] returns a handle only for a path that [os.Stat]
    reports as a directory, and the handle holds that path; every error it
    returns is wrapped as [new tuf repo]. *)
Theorem newLocalRepo_only_directories fs path :
  (∀ r, newLocalRepo fs path = Return (Ok r) →
        os_Stat fs path = (Some {| IsDir := true |}, None) ∧ repoPath r = path)
  ∧ (∀ e, newLocalRepo fs path = Return (Err e) →
          ∃ cause, e = Wrap cause "new tuf repo"
                   ∧ validatePath fs path = Return (Some cause)).
Proof.
  unfold newLocalRepo, validatePath.
  destruct (os_Stat fs path) as [fi err] eqn:Hstat.
  pose proof (os_Stat_wf fs path) as Hwf. rewrite Hstat in Hwf.
  split.
  - intros r. destruct (os_IsNotExist err) eqn:Hne.
    + destruct err; [|done]. discriminate.
    + destruct fi as [[[]]|]; [|discriminate..].
      destruct err; [done|]. by intros [= <-].
  - intros e. destruct (os_IsNotExist err) eqn:Hne.
    + destruct err as [e0|]; [|done]. cbn. intros [= <-]. eauto.
    + destruct fi as [[[]]|]; [discriminate| |discriminate].
      cbn. intros [= <-]. eauto.
Qed.

End MoreLocalRepoFacts.

(** ** Role identity *)

Section MoreRoleIdentityFacts.

Import RoleIdentity.

(** X4: [validateRole] returns nil exactly for [root], [snapshot],
    [timestamp], [targets] and the names made of one or more decimal digits
    followed by [.root]; for every other string it returns the error
    [%q is not a valid role] with the string as its argument. *)
Theorem validateRole_exact (r : role) :
  (validateRole r = None ↔
     r = "root" ∨ r = "snapshot" ∨ r = "timestamp" ∨ r = "targets"
     ∨ ∃ ds, ds ≠ [] ∧ forallb isDigit ds = true
             ∧ list_ascii_of_string r = versionOf ds)
  ∧ (validateRole r = None
     ∨ validateRole r = Some (Errorf "%q is not a valid role" [r])).
Proof.
  split.
  - by rewrite validateRole_None, MatchString_roleRegex.
  - unfold validateRole. destruct (MatchString roleRegex r); auto.
Qed.

(** X5: a name that [validateRole] accepts is made of decimal digits,
    lower-case letters and dots only: no path separator, no space, no line
    break, and never two dots. *)
Theorem validateRole_alphabet (r : role) :
  validateRole r = None →
  Forall (λ c, isDigit c = true ∨ inRange "a"%char "z"%char c = true ∨ c = "."%char)
    (list_ascii_of_string r)
  ∧ length (filter (λ c, c = "."%char) (list_ascii_of_string r)) ≤ 1.
Proof.
  intros Hvalid. apply (proj1 (proj1 (validateRole_exact r))) in Hvalid.
  set (okb := λ c, isDigit c || inRange "a"%char "z"%char c
                   || bool_decide (c = "."%char)).
  assert (Hok : ∀ w, forallb okb w = true →
            Forall (λ c, isDigit c = true ∨ inRange "a"%char "z"%char c = true
                         ∨ c = "."%char) w).
  { induction w as [|c w IH]; cbn; [constructor|].
    intros [Hc Hw]%andb_true_iff. constructor; [|by apply IH].
    unfold okb in Hc. rewrite !orb_true_iff, bool_decide_eq_true in Hc. tauto. }
  destruct Hvalid as [->|[->|[->|[->|(ds & _ & Hds & Hr)]]]].
  1-4: split; [apply Hok; vm_compute; reflexivity | vm_compute; lia].
  rewrite Hr. unfold versionOf. split.
  - apply Hok. rewrite forallb_app. apply andb_true_iff. split; [|by vm_compute].
    clear Hr. induction ds as [|c ds IH]; [done|]. cbn in *.
    apply andb_true_iff in Hds as [Hc Hds]. unfold okb at 1. by rewrite Hc, IH.
  - rewrite filter_app, length_app.
    replace (filter (λ c, c = "."%char) ds) with (@nil ascii); [vm_compute; lia|].
    symmetry. clear Hr. induction ds as [|c ds IH]; [done|]. cbn in Hds.
    apply andb_true_iff in Hds as [Hc Hds].
    rewrite filter_cons, decide_False; [by apply IH|].
    intros ->. by vm_compute in Hc.
Qed.

End MoreRoleIdentityFacts.

Lemma validateRole_alphabet_witness :
  Forall (λ c, RoleIdentity.isDigit c = true
               ∨ RoleIdentity.inRange "a"%char "z"%char c = true ∨ c = "."%char)
    (list_ascii_of_string "12.root")
  ∧ length (filter (λ c, c = "."%char) (list_ascii_of_string "12.root")) ≤ 1.
Proof.
  apply (validateRole_alphabet "12.root"). vm_compute. reflexivity.
Defined.

(** ** Remote repository handle *)

Section MoreNotaryFacts.

Import NotaryRepo.

Context {URL Client : Type} (Scheme : URL → string)
        (url_Parse : string → result URL).

(** X6: [validateURL] returns a URL exactly when the address parses and its
    scheme is [https], and then the URL is the parsed one; an address that
    does not parse gives the wrapped error of the parser, any other scheme
    the error [tuf url scheme must be %q]. *)
Theorem validateURL_https_only (repoURL : string) :
  (∀ u, validateURL Scheme url_Parse repoURL = Ok u ↔
        url_Parse repoURL = Ok u ∧ Scheme u = "https")
  ∧ (∀ e, url_Parse repoURL = Err e →
          validateURL Scheme url_Parse repoURL
          = Err (Wrap e "tuf remote repo url validation failed"))
  ∧ (∀ u, url_Parse repoURL = Ok u → Scheme u ≠ "https" →
          validateURL Scheme url_Parse repoURL
          = Err (Errorf "tuf url scheme must be %q" ["https"])).
Proof.
  unfold validateURL, tufURLScheme. split; [|split].
  - intros u. destruct (url_Parse repoURL) as [u'|e].
    + case_bool_decide as Hs; cbn; split.
      * by intros [= <-].
      * by intros [[= <-] _].
      * done.
      * intros [[= <-] ?]. done.
    + split; [done|]. by intros [? _].
  - by intros e ->.
  - intros u -> Hs. by rewrite bool_decide_eq_false_2.
Qed.

(** X7: with settings, [newNotaryRepo] never panics: it returns a handle
    exactly when [NotaryURL] passes [validateURL], and the handle holds the
    parsed URL, the GUN of the settings and the size bound and client
    given; otherwise it returns the error of [validateURL] as it is, not
    wrapped.  Without settings (nil) it panics. *)
Theorem newNotaryRepo_exact (st : Settings) (size : Z) (c : Client) :
  (∀ r, newNotaryRepo Scheme url_Parse (Some st) size c = Return (Ok r) ↔
        ∃ u, url_Parse (NotaryURL st) = Ok u ∧ Scheme u = "https"
             ∧ r = {| url := u; gun := GUN st; maxResponseSize := size;
                      client := c |})
  ∧ (∀ e, newNotaryRepo Scheme url_Parse (Some st) size c = Return (Err e) ↔
          validateURL Scheme url_Parse (NotaryURL st) = Err e)
  ∧ (∀ m, newNotaryRepo Scheme url_Parse (Some st) size c ≠ Panic m)
  ∧ newNotaryRepo Scheme url_Parse None size c = Panic LocalRepo.nilDereference.
Proof.
  unfold newNotaryRepo. split; [|split; [|split]].
  - intros r. split.
    + destruct (validateURL _ _ _) as [u|e] eqn:Hv; [|done].
      apply validateURL_https_only in Hv as [Hp Hs]. intros [= <-]. eauto.
    + intros (u & Hp & Hs & ->).
      by rewrite (proj2 (proj1 (validateURL_https_only _) u) (conj Hp Hs)).
  - intros e. destruct (validateURL _ _ _); split; congruence.
  - intros m. by destruct (validateURL _ _ _).
  - done.
Qed.

End MoreNotaryFacts.

(** ** Delegation resolver *)

Section MoreResolverFacts.

Import RoleIdentity Resolver.

Context {FIM : Type}.

Implicit Types (rt root : RootTarget FIM) (targ : Targets FIM).
Implicit Types (vs : list (string * Targets FIM)).
Implicit Types (l ext : list (string * result (Targets FIM))).

(** *** What [replay] records *)

Lemma replay_targetLookup_inv rt vs name targ :
  targetLookup (replay rt vs) !! name = Some targ →
  targetLookup rt !! name = Some targ ∨ (name, targ) ∈ vs.
Proof.
  revert rt. induction vs as [|[n t] vs IH]; intros rt; [by left|].
  rewrite replay_cons. intros [H|H]%IH; [|right; by right].
  rewrite append_targetLookup in H. cbn in H.
  destruct (decide (n = name)) as [->|Hne].
  - rewrite lookup_insert_eq in H. injection H as ->. right; by left.
  - rewrite lookup_insert_ne in H by done. by left.
Qed.

Lemma replay_paths_inv rt vs path fim :
  paths (replay rt vs) !! path = Some fim →
  paths rt !! path = Some fim
  ∨ ∃ v, v ∈ vs ∧ signed_Targets (Signed v.2) !! path = Some fim.
Proof.
  revert rt. induction vs as [|v vs IH]; intros rt; [by left|].
  rewrite replay_cons. intros [H|(w & Hw & H)]%IH.
  - rewrite append_paths in H. apply lookup_union_Some_raw in H as [H|[_ H]].
    + by left.
    + right. exists v. split; [by left|done].
  - right. exists w. split; [by right|done].
Qed.

Lemma replay_paths_claimed rt vs v path fim :
  v ∈ vs → signed_Targets (Signed v.2) !! path = Some fim →
  is_Some (paths (replay rt vs) !! path).
Proof.
  revert rt. induction vs as [|w vs IH]; intros rt Hin Hclaim.
  - by apply elem_of_nil in Hin.
  - rewrite replay_cons. apply elem_of_cons in Hin as [->|Hin]; [|by apply IH].
    assert (is_Some (paths (append rt w.1 w.2) !! path)) as [fim' Hown].
    { rewrite append_paths. destruct (paths rt !! path) as [old|] eqn:Hold.
      - exists old. by apply lookup_union_Some_l.
      - exists fim. by rewrite lookup_union_r. }
    exists fim'. by apply replay_paths_owned.
Qed.

(** *** Accounting for the calls *)

Lemma declared_app vs1 vs2 : declared (vs1 ++ vs2) = declared vs1 + declared vs2.
Proof. apply sum_list_with_app. Qed.

Lemma delegatedIn_mono l l' name :
  (∀ x, x ∈ l → x ∈ l') → delegatedIn l name → delegatedIn l' name.
Proof. intros Hsub (parent & targ & d & Hin & Hd & Hn). exists parent, targ, d. auto. Qed.

Lemma answered_mono l l' name :
  (∀ x, x ∈ l → x ∈ l') → answered l name → answered l' name.
Proof. intros Hsub (r & Hin & Hr). exists r. auto. Qed.

Lemma closedLog_app l1 l2 : closedLog l1 → closedLog l2 → closedLog (l1 ++ l2).
Proof.
  intros H1 H2 parent targ d [Hin|Hin]%elem_of_app Hd.
  - eapply answered_mono; [|by eapply H1]. intros x ?. apply elem_of_app. auto.
  - eapply answered_mono; [|by eapply H2]. intros x ?. apply elem_of_app. auto.
Qed.

Lemma justified_app names1 names2 l1 l2 :
  justified names1 l1 → justified names2 l2 →
  justified (names1 ++ names2) (l1 ++ l2).
Proof.
  intros H1 H2 i name r Hi.
  apply lookup_app_Some in Hi as [Hi|[Hlen Hi]].
  - rewrite take_app_le by (apply lookup_lt_Some in Hi; lia).
    destruct (H1 i name r Hi) as [?|?]; [left; set_solver|by right].
  - rewrite take_app_ge by done.
    destruct (H2 _ name r Hi) as [?|Hd]; [left; set_solver|right].
    eapply delegatedIn_mono; [|exact Hd]. intros x ?. apply elem_of_app. auto.
Qed.

Lemma justified_single name (r : result (Targets FIM)) :
  justified [name] [(name, r)].
Proof.
  intros [|i] n r' Hi; [|by destruct i]. injection Hi as <- <-. left. by left.
Qed.

(** The calls of a role fetched with success, then those of the loop over
    its delegations. *)
Lemma justified_visit name targ ext :
  justified (Name <$> delegationsOf targ) ext →
  justified [name] ((name, Ok targ) :: ext).
Proof.
  intros Hloop [|i] n r Hi.
  - injection Hi as <- <-. left. by left.
  - cbn in Hi. right. cbn [take].
    destruct (Hloop i n r Hi) as [Hn|Hd].
    + apply list_elem_of_fmap in Hn as (d & -> & Hd).
      exists name, targ, d. split; [by left|done].
    + eapply delegatedIn_mono; [|exact Hd]. intros x ?. by right.
Qed.

Section AnyFetcher.

Context {F : Type} `{!roleFetcher FIM F}.

Implicit Types (lf : logged FIM F).

(** X8: the tree [targetTreeBuilder] returns holds what the fetcher
    returned and nothing else: its embedded [Targets] is the answer to the
    first call, that for the top-level role; the keys of the role lookup
    are the roles fetched with success, each with metadata the fetcher
    returned for it; every path of the path-ownership map has the entry
    some fetched role declares for it, and every path a fetched role
    declares has an owner. *)
Theorem targetTreeBuilder_tree_contents fuel (f : F) lf' rt :
  targetTreeBuilder fuel {| inner := f; calls := [] |} = Some (lf', Ok rt) →
  (∃ rest, calls lf' = (roleTargets, Ok (root_Targets rt)) :: rest)
  ∧ dom (targetLookup rt) = list_to_set (visitedRoles (calls lf'))
  ∧ (∀ name targ, targetLookup rt !! name = Some targ →
                  (name, Ok targ) ∈ calls lf')
  ∧ (∀ path fim, paths rt !! path = Some fim →
       ∃ name targ, (name, Ok targ) ∈ calls lf'
                    ∧ signed_Targets (Signed targ) !! path = Some fim)
  ∧ (∀ name targ path fim,
       (name, Ok targ) ∈ calls lf' →
       signed_Targets (Signed targ) !! path = Some fim →
       is_Some (paths rt !! path)).
Proof.
  intros Hrun.
  apply targetTreeBuilder_Trace in Hrun as (ext & Hcalls & _ & _ & Hres).
  cbn in Hcalls. subst ext. destruct Hres as (targ0 & rest & Hl & ->).
  split; [|split; [|split; [|split]]].
  - exists rest. by rewrite replay_root_Targets.
  - rewrite replay_targetLookup_dom. cbn. rewrite dom_empty_L.
    by rewrite (left_id_L ∅ (∪)).
  - intros name targ [H|H]%replay_targetLookup_inv; [done|].
    by apply elem_of_visits.
  - intros path fim [H|([n t] & Hv & H)]%replay_paths_inv; [done|].
    exists n, t. split; [by apply elem_of_visits|done].
  - intros name targ path fim Hin Hclaim.
    apply elem_of_visits in Hin.
    by apply (replay_paths_claimed _ _ (name, targ) path fim).
Qed.

(** The calls of the two loops and of [getDelegatedTarget]. *)
Lemma delegatedLoop_log visit roles lf root lf' root' err :
  logsVisits visit →
  delegatedLoop visit roles lf root = Some (lf', root', err) →
  ∃ ext, calls lf' = calls lf ++ ext ∧ loopLog roles ext err.
Proof.
  intros Hvisit. revert lf root.
  induction roles as [|role roles IH]; intros lf root Hloop; cbn in Hloop.
  - injection Hloop as <- <- <-. exists []. rewrite app_nil_r. split; [done|].
    split; [done|]. split; [by intros i ? ? ?|]. intros _.
    split; [done|]. split; [by intros ? ?%elem_of_nil|].
    by intros ? ? ? ?%elem_of_nil.
  - destruct (visit lf root (Name role)) as [[[lf1 root1] err1]|] eqn:Hv;
      [|discriminate].
    apply Hvisit in Hv as (ext1 & Hc1 & Hhead & Hj1 & Hseen & Hok).
    assert (Hcont : delegatedLoop visit roles lf1 root1 = Some (lf', root', err) →
              answered ext1 (Name role) → closedLog ext1 →
              length ext1 = 1 + declared (visits ext1) →
              ∃ ext, calls lf' = calls lf ++ ext ∧ loopLog (role :: roles) ext err).
    { intros Hrest Hans Hclosed Hlen.
      apply IH in Hrest as (ext2 & Hc2 & Hne & Hj2 & Hnone).
      exists (ext1 ++ ext2). split; [by rewrite Hc2, Hc1, app_assoc|].
      split; [done|]. split; [by apply (justified_app [Name role])|].
      intros ->. destruct (Hnone eq_refl) as (Hlen2 & Hans2 & Hclosed2).
      split; [|split].
      - rewrite length_app, visits_app, declared_app, Hlen, Hlen2. cbn. lia.
      - intros d [->|Hd]%elem_of_cons.
        + eapply answered_mono; [|exact Hans]. intros x ?. apply elem_of_app. auto.
        + eapply answered_mono; [|by apply Hans2]. intros x ?. apply elem_of_app. auto.
      - by apply closedLog_app. }
    destruct (decide (err1 = Some errTargetSeen)) as [->|Hne].
    + rewrite (Hseen eq_refl) in *. apply Hcont; [done| | |done].
      * exists (Err errTargetSeen). split; [by left|by left].
      * intros parent targ d [Hin|Hin]%elem_of_cons; [done|by apply elem_of_nil in Hin].
    + destruct err1 as [e|].
      * injection Hloop as <- <- <-. exists ext1. split; [done|].
        split; [done|]. split; [|done].
        intros i n r Hi. destruct (Hj1 i n r Hi) as [Hn|?]; [left|by right].
        apply list_elem_of_singleton in Hn as ->. by left.
      * destruct (Hok eq_refl) as [Hlen Hclosed].
        destruct Hhead as (r & rest & -> & Hr). destruct (Hr eq_refl) as [targ ->].
        apply Hcont; [done| |done|done].
        exists (Ok targ). split; [by left|right; eauto].
Qed.

Lemma getDelegatedTarget_log fuel : logsVisits (getDelegatedTarget fuel).
Proof.
  induction fuel as [|fuel IH]; intros lf root name lf' root' err Hrun;
    [discriminate|].
  cbn [getDelegatedTarget] in Hrun. rewrite fetch_logged in Hrun.
  destruct (fetch (inner lf) name) as [f1 [target|e]]; cbn [fst snd] in Hrun.
  - apply delegatedLoop_log in Hrun as (ext & Hc & Hne & Hj & Hnone); [|done].
    cbn [calls] in Hc. exists ((name, Ok target) :: ext).
    split; [by rewrite Hc, <- app_assoc|].
    split; [|split; [|split]].
    + exists (Ok target), ext. split; [done|]. eauto.
    + by apply justified_visit.
    + done.
    + intros ->. destruct (Hnone eq_refl) as (Hlen & Hans & Hclosed).
      split.
      * cbn [length visits]. unfold declared in *. cbn. 
        change (Roles (signed_Delegations (Signed target)))
          with (delegationsOf target) in *. lia.
      * intros parent targ d [[= <- <-]|Hin]%elem_of_cons Hd.
        -- eapply answered_mono; [|by apply Hans]. intros x ?. by right.
        -- eapply answered_mono; [|by eapply Hclosed]. intros x ?. by right.
  - injection Hrun as <- <- <-. cbn [calls]. exists [(name, Err e)].
    split; [done|]. split; [|split; [|split]].
    + exists (Err e), []. split; [done|]. done.
    + apply justified_single.
    + by intros [= ->].
    + done.
Qed.

Lemma topLoop_log fuel roles lf root lf' root' err :
  topLoop (getDelegatedTarget fuel) roles lf root = Some (lf', root', err) →
  ∃ ext,
    calls lf' = calls lf ++ ext
    ∧ justified (Name <$> roles) ext
    ∧ (err = None →
       length ext = length roles + declared (visits ext)
       ∧ closedLog ext
       ∧ (Name <$> roles) `sublist_of` visitedRoles ext).
Proof.
  revert lf root. induction roles as [|role roles IH]; intros lf root Hloop;
    cbn in Hloop.
  - injection Hloop as <- <- <-. exists []. rewrite app_nil_r. split; [done|].
    split; [by intros i ? ? ?|]. intros _.
    split; [done|]. split; [by intros ? ? ? ?%elem_of_nil|]. constructor.
  - destruct (getDelegatedTarget fuel lf root (Name role))
      as [[[lf1 root1] err1]|] eqn:Hv; [|discriminate].
    apply getDelegatedTarget_log in Hv as (ext1 & Hc1 & Hhead & Hj1 & _ & Hok).
    destruct err1 as [e|].
    + injection Hloop as <- <- <-. exists ext1. split; [done|]. split; [|done].
      intros i n r Hi. destruct (Hj1 i n r Hi) as [Hn|?]; [left|by right].
      apply list_elem_of_singleton in Hn as ->. by left.
    + apply IH in Hloop as (ext2 & Hc2 & Hj2 & Hnone).
      destruct (Hok eq_refl) as [Hlen Hclosed].
      destruct Hhead as (r & rest & -> & Hr). destruct (Hr eq_refl) as [targ ->].
      exists (((Name role, Ok targ) :: rest) ++ ext2).
      split; [by rewrite Hc2, Hc1, app_assoc|].
      split; [by apply (justified_app [Name role])|].
      intros ->. destruct (Hnone eq_refl) as (Hlen2 & Hclosed2 & Hsub).
      split; [|split].
      * rewrite length_app, visits_app, declared_app, Hlen, Hlen2. cbn. lia.
      * by apply closedLog_app.
      * unfold visitedRoles in *. rewrite visits_app, fmap_app. cbn.
        apply sublist_skip. by apply sublist_inserts_l.
Qed.

Lemma targetTreeBuilder_log fuel lf lf' res :
  targetTreeBuilder fuel lf = Some (lf', res) →
  ∃ ext,
    calls lf' = calls lf ++ ext
    ∧ justified [roleTargets] ext
    ∧ (∀ rt, res = Ok rt →
         length ext = 1 + declared (visits ext)
         ∧ closedLog ext
         ∧ (roleTargets :: (Name <$> delegationsOf (root_Targets rt)))
             `sublist_of` visitedRoles ext).
Proof.
  unfold targetTreeBuilder. rewrite fetch_logged.
  destruct (fetch (inner lf) roleTargets) as [f1 [targ|e]]; cbn [fst snd].
  - rewrite append_root_Targets. cbn [root_Targets].
    destruct (topLoop _ _ _ _) as [[[lf2 root2] err2]|] eqn:Hloop; [|discriminate].
    pose proof Hloop as Htrace.
    apply topLoop_Trace in Htrace as (ext0 & _ & _ & Hroot & _);
      [|apply getDelegatedTarget_Trace].
    apply topLoop_log in Hloop as (ext & Hc & Hj & Hnone). cbn [calls] in Hc.
    intros Hres. exists ((roleTargets, Ok targ) :: ext).
    assert (Hcalls : calls lf2 = calls lf ++ (roleTargets, Ok targ) :: ext)
      by (by rewrite Hc, <- app_assoc).
    destruct err2 as [e|]; injection Hres as <- <-.
    + split; [done|]. split; [by apply justified_visit|]. by intros rt.
    + split; [done|]. split; [by apply justified_visit|].
      intros rt [= <-]. destruct (Hnone eq_refl) as (Hlen & Hclosed & Hsub).
      rewrite Hroot, replay_root_Targets. cbn [root_Targets append].
      split; [|split].
      * cbn [length visits]. unfold declared in *. cbn.
        change (Roles (signed_Delegations (Signed targ)))
          with (delegationsOf targ) in *. lia.
      * intros parent t d [[= <- <-]|Hin]%elem_of_cons Hd.
        -- assert (Hans : answered ext (Name d)).
           { apply list_elem_of_fmap_2 with (f := Name) in Hd.
             eapply elem_of_sublist in Hd; [|exact Hsub].
             unfold visitedRoles in Hd.
             apply list_elem_of_fmap in Hd as ([n t'] & Hn & Hin).
             cbn in Hn. subst n. apply elem_of_visits in Hin.
             exists (Ok t'). split; [done|right; eauto]. }
           eapply answered_mono; [|exact Hans]. intros x ?. by right.
        -- eapply answered_mono; [|by eapply Hclosed]. intros x ?. by right.
      * unfold visitedRoles in *. cbn. by apply sublist_skip.
  - intros [= <- <-]. cbn [calls]. exists [(roleTargets, Err e)].
    split; [done|]. split; [apply justified_single|]. by intros rt.
Qed.

(** X9: a resolution that returns a tree has called the fetcher once for
    the top-level role and once for each delegation declared by each role
    it fetched with success: no more, no fewer. *)
Theorem targetTreeBuilder_fetch_count fuel (f : F) lf' rt :
  targetTreeBuilder fuel {| inner := f; calls := [] |} = Some (lf', Ok rt) →
  length (calls lf') = 1 + declared (visits (calls lf')).
Proof.
  intros (ext & Hc & _ & Hok)%targetTreeBuilder_log. cbn in Hc. subst ext.
  by destruct (Hok rt eq_refl) as (? & _).
Qed.

(** X10: whatever the result, every call of a resolution is for the
    top-level role or for a role that a role fetched with success before
    that call delegates to: no other role is ever asked for. *)
Theorem targetTreeBuilder_calls_justified fuel (f : F) lf' res i name r :
  targetTreeBuilder fuel {| inner := f; calls := [] |} = Some (lf', res) →
  calls lf' !! i = Some (name, r) →
  name = roleTargets
  ∨ ∃ parent targ d,
      (parent, Ok targ) ∈ take i (calls lf')
      ∧ d ∈ Roles (signed_Delegations (Signed targ)) ∧ Name d = name.
Proof.
  intros (ext & Hc & Hj & _)%targetTreeBuilder_log Hi. cbn in Hc. subst ext.
  destruct (Hj i name r Hi) as [Hn|Hd]; [left|by right].
  by apply list_elem_of_singleton in Hn.
Qed.

(** X11: in a resolution that returns a tree, every delegation of every
    role fetched with success was followed: the fetcher was asked for the
    delegated role and answered with metadata or with the sentinel. *)
Theorem targetTreeBuilder_follows_all fuel (f : F) lf' rt parent targ d :
  targetTreeBuilder fuel {| inner := f; calls := [] |} = Some (lf', Ok rt) →
  (parent, Ok targ) ∈ calls lf' →
  d ∈ Roles (signed_Delegations (Signed targ)) →
  ∃ r, (Name d, r) ∈ calls lf' ∧ (r = Err errTargetSeen ∨ ∃ targ', r = Ok targ').
Proof.
  intros (ext & Hc & _ & Hok)%targetTreeBuilder_log Hin Hd. cbn in Hc. subst ext.
  destruct (Hok rt eq_refl) as (_ & Hclosed & _). by eapply Hclosed.
Qed.

(** X12: in a resolution that returns a tree, the top-level role and then
    its delegations, in the order declared, are among the roles visited,
    in that order: each delegation of the top-level role was fetched with
    success in its turn. *)
Theorem targetTreeBuilder_top_level_in_order fuel (f : F) lf' rt :
  targetTreeBuilder fuel {| inner := f; calls := [] |} = Some (lf', Ok rt) →
  (roleTargets :: (Name <$> Roles (signed_Delegations (Signed (root_Targets rt)))))
    `sublist_of` visitedRoles (calls lf').
Proof.
  intros (ext & Hc & _ & Hok)%targetTreeBuilder_log. cbn in Hc. subst ext.
  by destruct (Hok rt eq_refl) as (_ & _ & ?).
Qed.

End AnyFetcher.

Section AnyFetcherVisits.

Context {F : Type} `{!roleFetcher FIM F}.

Lemma delegatedLoop_never_seen
    (visit : F → RootTarget FIM → string → option (visited FIM F))
    roles f root f' root' err :
  delegatedLoop visit roles f root = Some (f', root', err) →
  err ≠ Some errTargetSeen.
Proof.
  revert f root. induction roles as [|role roles IH]; intros f root; cbn.
  - by intros [= <- <- <-].
  - destruct (visit f root (Name role)) as [[[f1 root1] err1]|]; [|done].
    destruct (decide (err1 = Some errTargetSeen)); [apply IH|].
    destruct err1; [|apply IH]. by intros [= <- <- <-].
Qed.

(** X13: [getDelegatedTarget] returns the sentinel only when the fetch of
    its own role returned it: it has then made that one call and left the
    tree as it was.  A sentinel met further down is never passed up. *)
Theorem getDelegatedTarget_seen_is_own fuel (f : F) root name f' root' :
  getDelegatedTarget fuel f root name = Some (f', root', Some errTargetSeen) →
  fetch f name = (f', Err errTargetSeen) ∧ root' = root.
Proof.
  destruct fuel as [|fuel]; [done|]. cbn [getDelegatedTarget].
  destruct (fetch f name) as [f1 [target|e]].
  - by intros Hloop%delegatedLoop_never_seen.
  - by intros [= <- <- <-].
Qed.

(** X14: whatever it returns, [getDelegatedTarget] only adds to the tree:
    the embedded top-level [Targets] is untouched, a path that has an
    owner keeps its entry, and no key leaves the role lookup. *)
Theorem getDelegatedTarget_only_adds fuel (f : F) root name f' root' err :
  getDelegatedTarget fuel f root name = Some (f', root', err) →
  root_Targets root' = root_Targets root
  ∧ (∀ path fim, paths root !! path = Some fim → paths root' !! path = Some fim)
  ∧ dom (targetLookup root) ⊆ dom (targetLookup root').
Proof.
  intros Hrun.
  pose proof (getDelegatedTarget_forget fuel {| inner := f; calls := [] |} root name)
    as Hsim.
  cbn [inner] in Hsim. rewrite Hrun in Hsim.
  destruct (getDelegatedTarget fuel {| inner := f; calls := [] |} root name)
    as [[[lf1 root1] err1]|] eqn:Hlog; [|discriminate].
  injection Hsim as _ -> _.
  apply getDelegatedTarget_Trace in Hlog as (ext & _ & _ & -> & _).
  split; [apply replay_root_Targets|]. split.
  - intros path fim. apply replay_paths_owned.
  - rewrite replay_targetLookup_dom. set_solver.
Qed.

End AnyFetcherVisits.

(** *** Over a delegation graph *)

Section OverGraphs.

Implicit Types (g : gmap string (Targets FIM)).

(** A sentinel was the answer for a role served before. *)
Lemma graph_run_seen (gf gf' : graphFetcher FIM) l name :
  run gf l gf' → (name, Err errTargetSeen) ∈ l →
  name ∈ served gf ∨ name ∈ visitedRoles l.
Proof.
  unfold visitedRoles.
  revert gf. induction l as [|[n r] l IH]; intros gf Hrun Hin; cbn [run] in Hrun.
  - by apply elem_of_nil in Hin.
  - destruct Hrun as (gf1 & Hfetch & Hrun).
    destruct (fetch_graph_cases gf n)
      as [[H Hs]|[(H & _ & _)|(t & H & _ & _)]];
      rewrite H in Hfetch; injection Hfetch as <- <-.
    + apply elem_of_cons in Hin as [[= ->]|Hin]; [by left|].
      cbn. by apply (IH gf).
    + apply elem_of_cons in Hin as [[=]|Hin]. cbn. by apply (IH gf).
    + apply elem_of_cons in Hin as [[=]|Hin]. cbn.
      destruct (IH _ Hrun Hin) as [Hs|?]; [|right; by right].
      cbn in Hs. apply elem_of_union in Hs as [->%elem_of_singleton|?];
        [right; by left|by left].
Qed.

(** X15: over any delegation graph, the keys of the role lookup of the
    returned tree are exactly the roles that delegations lead to from the
    top-level role, each with its metadata of the graph. *)
Theorem resolution_visits_reachable g fuel lf' rt :
  targetTreeBuilder fuel (start g) = Some (lf', Ok rt) →
  (∀ name, name ∈ dom (targetLookup rt) ↔ reachable g name)
  ∧ (∀ name targ, targetLookup rt !! name = Some targ → g !! name = Some targ).
Proof.
  intros Hrun.
  destruct (targetTreeBuilder_tree_contents fuel _ lf' rt Hrun)
    as ((rest & Hfirst) & Hdom & Hlookup & _).
  pose proof Hrun as Hlog.
  apply targetTreeBuilder_log in Hlog as (ext & Hc & Hj & Hok).
  cbn in Hc. subst ext. destruct (Hok rt eq_refl) as (_ & Hclosed & _).
  pose proof Hrun as Htrace.
  apply targetTreeBuilder_Trace in Htrace as (ext & Hc & Hgraph & _).
  cbn in Hc. subst ext. cbn in Hgraph.
  pose proof (graph_run_metadata _ _ _ Hgraph) as [_ Hmeta]. cbn in Hmeta.
  pose proof (λ name, graph_run_seen _ _ _ name Hgraph) as Hseen. cbn in Hseen.
  assert (Hvisited : ∀ name, name ∈ dom (targetLookup rt) ↔
            ∃ targ, (name, Ok targ) ∈ calls lf').
  { intros name. rewrite Hdom, elem_of_list_to_set. unfold visitedRoles.
    rewrite list_elem_of_fmap. split.
    - intros ([n t] & -> & Hin). exists t. by apply elem_of_visits.
    - intros (t & Hin). exists (name, t). split; [done|]. by apply elem_of_visits. }
  assert (Hreach : ∀ i name targ,
            calls lf' !! i = Some (name, Ok targ) → reachable g name).
  { induction i as [i IH] using lt_wf_ind. intros name targ Hi.
    destruct (Hj i name _ Hi) as [Hn|(parent & t & d & Hin & Hd & <-)].
    - apply list_elem_of_singleton in Hn as ->. constructor.
    - apply list_elem_of_lookup in Hin as [j Hj'].
      apply lookup_take_Some in Hj' as [Hj' Hlt].
      apply (reachable_step g parent t); [by eapply IH| |done].
      apply Hmeta, elem_of_visits. by eapply list_elem_of_lookup_2. }
  split.
  - intros name. split.
    + intros (targ & Hin)%Hvisited.
      apply list_elem_of_lookup in Hin as [i Hi]. by eapply Hreach.
    + induction 1 as [|parent targ d _ IH Hg Hd].
      * apply Hvisited. exists (root_Targets rt). rewrite Hfirst. by left.
      * apply Hvisited in IH as (t & Hin).
        assert (t = targ) as ->.
        { apply elem_of_visits, Hmeta in Hin. congruence. }
        destruct (Hclosed parent targ d Hin Hd) as (r & Hr & [->|[t' ->]]).
        -- destruct (Hseen _ Hr) as [Hs|Hv]; [by apply elem_of_empty in Hs|].
           by rewrite Hdom, elem_of_list_to_set.
        -- apply Hvisited. eauto.
  - intros name targ Hin%Hlookup. by apply Hmeta, elem_of_visits.
Qed.

(** X16: over any delegation graph, a resolution returns a tree only if
    the delegations of the top-level role name different roles, none of
    them the top-level role. *)
Theorem resolution_top_level_distinct g fuel lf' rt :
  targetTreeBuilder fuel (start g) = Some (lf', Ok rt) →
  NoDup (roleTargets
         :: (Name <$> Roles (signed_Delegations (Signed (root_Targets rt))))).
Proof.
  intros Hrun.
  pose proof (targetTreeBuilder_top_level_in_order fuel _ lf' rt Hrun) as Hsub.
  apply targetTreeBuilder_Trace in Hrun as (ext & Hc & Hgraph & _).
  cbn in Hc. subst ext. apply graph_run in Hgraph as (Hnd & _).
  by eapply sublist_NoDup.
Qed.

(** X17: a fetcher that can serve only so many roles makes the resolution
    return: with fuel at least its budget, [targetTreeBuilder] returns a
    tree or an error. *)
Theorem resolution_returns_within_budget {F : Type} `{!roleFetcher FIM F}
    (budget : F → nat) `{!Bounded F budget} fuel (f : F) :
  budget f ≤ fuel → ∃ f' res, targetTreeBuilder fuel f = Some (f', res).
Proof. apply (targetTreeBuilder_returns budget). Qed.

(** X18: over any delegation graph, the roles of a resolution that
    returns a tree were visited in preorder: a role, then its delegations
    in the order declared, each explored in full before the next, a role
    already visited skipped. *)
Theorem resolution_visits_in_preorder g fuel lf' rt :
  targetTreeBuilder fuel (start g) = Some (lf', Ok rt) →
  visitedRoles (calls lf') = spec_preorder (S fuel) g [] roleTargets.
Proof. apply targetTreeBuilder_preorder. Qed.

End OverGraphs.

End MoreResolverFacts.

(** ** The further properties on the samples *)

Section MoreExamples.

Import RoleIdentity Resolver.

(** The resolution [run] of a sample returns a tree: name it. *)
Ltac sample_tree run lf rt E :=
  let H := fresh in
  assert (H : returnsTree run = true) by (vm_compute; reflexivity);
  destruct run as [[lf [rt|?]]|] eqn:E; try discriminate H; clear H.

Lemma targetTreeBuilder_tree_contents_witness :
  ∃ lf' rt,
    targetTreeBuilder 2 (start siblingGraph) = Some (lf', Ok rt)
    ∧ dom (targetLookup rt) = list_to_set (visitedRoles (calls lf'))
    ∧ (∀ path fim, paths rt !! path = Some fim →
         ∃ name targ, (name, Ok targ) ∈ calls lf'
                      ∧ signed_Targets (Signed targ) !! path = Some fim).
Proof.
  sample_tree (targetTreeBuilder 2 (start siblingGraph)) lf' rt E.
  exists lf', rt. split; [reflexivity|].
  destruct (targetTreeBuilder_tree_contents 2
              {| graph := siblingGraph; served := ∅ |} lf' rt E)
    as (_ & Hdom & _ & Hpaths & _).
  split; [exact Hdom|exact Hpaths].
Defined.

Lemma targetTreeBuilder_fetch_count_witness :
  ∃ lf' rt,
    targetTreeBuilder 3 (start diamondGraph) = Some (lf', Ok rt)
    ∧ length (calls lf') = 1 + declared (visits (calls lf')).
Proof.
  sample_tree (targetTreeBuilder 3 (start diamondGraph)) lf' rt E.
  exists lf', rt. split; [reflexivity|].
  exact (targetTreeBuilder_fetch_count 3
           {| graph := diamondGraph; served := ∅ |} lf' rt E).
Defined.

(** The third call of the resolution of [brokenGraph], the failing one for
    [b], is for a delegation of the top-level role. *)
Lemma targetTreeBuilder_calls_justified_witness :
  ∃ lf' res,
    targetTreeBuilder 3 (start brokenGraph) = Some (lf', res)
    ∧ ("b" = roleTargets
       ∨ ∃ parent targ d,
           (parent, Ok targ) ∈ take 2 (calls lf')
           ∧ d ∈ Roles (signed_Delegations (Signed targ)) ∧ Name d = "b").
Proof.
  destruct (targetTreeBuilder 3 (start brokenGraph)) as [[lf' res]|] eqn:E;
    [|by vm_compute in E].
  exists lf', res. split; [reflexivity|].
  apply (targetTreeBuilder_calls_justified 3
           {| graph := brokenGraph; served := ∅ |} lf' res 2 "b"
           (Err errNoSuchRole) E).
  apply (f_equal (λ r, r ≫= λ v, calls v.1 !! 2)) in E.
  vm_compute in E. symmetry. exact E.
Defined.

(** In the diamond the delegation of [b] to [c] is followed, and answered
    with the sentinel. *)
Lemma targetTreeBuilder_follows_all_witness :
  ∃ lf' rt,
    targetTreeBuilder 3 (start diamondGraph) = Some (lf', Ok rt)
    ∧ ∃ r, ("c", r) ∈ calls lf'
           ∧ (r = Err errTargetSeen ∨ ∃ targ', r = Ok targ').
Proof.
  sample_tree (targetTreeBuilder 3 (start diamondGraph)) lf' rt E.
  exists lf', rt. split; [reflexivity|].
  apply (targetTreeBuilder_follows_all 3 {| graph := diamondGraph; served := ∅ |}
           lf' rt "b" (node ["c"] [("/p", "entry of b")]) {| Name := "c" |} E).
  - apply list_elem_of_lookup. exists 3.
    apply (f_equal (λ r, r ≫= λ v, calls v.1 !! 3)) in E.
    vm_compute in E. symmetry. etransitivity; [exact E|]. vm_compute; reflexivity.
  - cbn. by left.
Defined.

Lemma targetTreeBuilder_top_level_in_order_witness :
  ∃ lf' rt,
    targetTreeBuilder 3 (start diamondGraph) = Some (lf', Ok rt)
    ∧ (roleTargets
       :: (Name <$> Roles (signed_Delegations (Signed (root_Targets rt)))))
        `sublist_of` visitedRoles (calls lf').
Proof.
  sample_tree (targetTreeBuilder 3 (start diamondGraph)) lf' rt E.
  exists lf', rt. split; [reflexivity|].
  exact (targetTreeBuilder_top_level_in_order 3
           {| graph := diamondGraph; served := ∅ |} lf' rt E).
Defined.

(** A fetcher that has served [a] is asked for [a] again. *)
Lemma getDelegatedTarget_seen_is_own_witness :
  let gf := {| graph := revisitGraph; served := {["a"]} |} in
  let root := emptyRoot (node ["a"; "b"] []) in
  fetch gf "a" = (gf, Err errTargetSeen) ∧ root = root.
Proof.
  intros gf root.
  apply (getDelegatedTarget_seen_is_own 1 gf root "a" gf root).
  vm_compute; reflexivity.
Defined.

(** The visit of [targets/b] leaves [/x] with the entry of [targets/a]. *)
Lemma getDelegatedTarget_only_adds_witness :
  let gf := {| graph := siblingGraph; served := {["targets"; "targets/a"]} |} in
  let root :=
    append (append (emptyRoot (node ["targets/a"; "targets/b"] [])) "targets"
              (node ["targets/a"; "targets/b"] []))
      "targets/a" (node [] [("/x", "entry of targets/a")]) in
  ∃ f' root' err,
    getDelegatedTarget 1 gf root "targets/b" = Some (f', root', err)
    ∧ root_Targets root' = root_Targets root
    ∧ (∀ path fim, paths root !! path = Some fim → paths root' !! path = Some fim)
    ∧ dom (targetLookup root) ⊆ dom (targetLookup root').
Proof.
  intros gf root.
  destruct (getDelegatedTarget 1 gf root "targets/b") as [[[f' root'] err]|] eqn:E;
    [|by vm_compute in E].
  exists f', root', err. split; [reflexivity|].
  exact (getDelegatedTarget_only_adds 1 gf root "targets/b" f' root' err E).
Defined.

Lemma resolution_visits_reachable_witness :
  ∃ lf' rt,
    targetTreeBuilder 3 (start cycleGraph) = Some (lf', Ok rt)
    ∧ (∀ name, name ∈ dom (targetLookup rt) ↔ reachable cycleGraph name)
    ∧ (∀ name targ, targetLookup rt !! name = Some targ →
                    cycleGraph !! name = Some targ).
Proof.
  sample_tree (targetTreeBuilder 3 (start cycleGraph)) lf' rt E.
  exists lf', rt. split; [reflexivity|].
  exact (resolution_visits_reachable cycleGraph 3 lf' rt E).
Defined.

Lemma resolution_top_level_distinct_witness :
  ∃ lf' rt,
    targetTreeBuilder 2 (start siblingGraph) = Some (lf', Ok rt)
    ∧ NoDup (roleTargets
             :: (Name <$> Roles (signed_Delegations (Signed (root_Targets rt))))).
Proof.
  sample_tree (targetTreeBuilder 2 (start siblingGraph)) lf' rt E.
  exists lf', rt. split; [reflexivity|].
  exact (resolution_top_level_distinct siblingGraph 2 lf' rt E).
Defined.

Lemma resolution_returns_within_budget_witness :
  ∃ f' res,
    targetTreeBuilder 4 {| graph := diamondGraph; served := ∅ |} = Some (f', res).
Proof.
  apply (resolution_returns_within_budget (F := graphFetcher string) unserved
           (Bounded0 := graph_Bounded) 4
           {| graph := diamondGraph; served := ∅ |}).
  vm_compute. lia.
Defined.

Lemma resolution_visits_in_preorder_witness :
  ∃ lf' rt,
    targetTreeBuilder 3 (start diamondGraph) = Some (lf', Ok rt)
    ∧ visitedRoles (calls lf') = spec_preorder 4 diamondGraph [] roleTargets.
Proof.
  sample_tree (targetTreeBuilder 3 (start diamondGraph)) lf' rt E.
  exists lf', rt. split; [reflexivity|].
  exact (resolution_visits_in_preorder diamondGraph 3 lf' rt E).
Defined.

End MoreExamples.
